(** * ChessAiManager: piece-square tables, incremental evaluation, alpha-beta search

    A shallow embedding of [src/managers/ChessAiManager/ChessAiManager.ts].

    - JavaScript objects and arrays live in a store ([heap]) and are
      denoted by references, so that [cloneDeep] followed by the in-place
      [Array.prototype.reverse] can be told apart from a mutation of the
      shared constant [PIECE_SQUARE_TABLES].
    - Scores are JavaScript numbers.  The tables and weights hold integers,
      so sums are modelled in [Z]; [-Infinity] and [+Infinity], which the
      search uses as initial bounds, are the two extra points of [num].
    - A computation returns [None] when it leaves this fragment: an access
      that JavaScript answers with a [TypeError], with [undefined] or with
      [NaN] (a missing table entry, a [null] move).
    - The rules engine (chess.js), [getMatrixPosition], [PIECE_WEIGHTS] and
      the contents of [PIECE_SQUARE_TABLES] are not part of the file; they
      are the members of the classes [ChessInstance] and [Imports]. *)

From Stdlib Require Import ZArith Lia Orders OrdersTac.
From stdpp Require Import base option list strings gmap.

Local Open Scope Z_scope.
Set Warnings "-register-all".

(** ** The store *)

Abbreviation loc := nat (only parsing).

Inductive val :=
| VUndef
| VNum (n : Z)
| VRef (l : loc).

Inductive obj :=
| OArr (elems : list val)
| OObj (props : list (string * val)).

Abbreviation heap := (list obj) (only parsing).

(** The values held by an object, in key order ([Object.values]; for an
    array, its elements). *)
Definition obj_vals (o : obj) : list val :=
  match o with
  | OArr vs => vs
  | OObj ps => ps.*2
  end.

(** The object of the same kind and keys as [o], holding [vs]. *)
Definition obj_with (o : obj) (vs : list val) : obj :=
  match o with
  | OArr _ => OArr vs
  | OObj ps => OObj (zip (ps.*1) vs)
  end.

(** What a value denotes, read through the store: the structural content
    that JSON would print. *)
Inductive tree :=
| TUndef
| TNum (n : Z)
| TArr (elems : list tree)
| TObj (props : list (string * tree)).

Definition tree_with (o : obj) (ts : list tree) : tree :=
  match o with
  | OArr _ => TArr ts
  | OObj ps => TObj (zip (ps.*1) ts)
  end.

Fixpoint snap (fuel : nat) (h : heap) (v : val) : option tree :=
  match v with
  | VUndef => Some TUndef
  | VNum n => Some (TNum n)
  | VRef l =>
      match fuel with
      | O => None
      | S f =>
          o ← h !! l;
          ts ← mapM (snap f h) (obj_vals o);
          Some (tree_with o ts)
      end
  end.

(** Every location met while reading [v], in reading order and with
    repetitions: a value shares no array or object between two places
    exactly when this list has no duplicate. *)
Fixpoint reach (fuel : nat) (h : heap) (v : val) : list loc :=
  match v with
  | VRef l =>
      l :: match fuel with
           | O => []
           | S f =>
               match h !! l with
               | Some o => obj_vals o ≫= reach f h
               | None => []
               end
           end
  | _ => []
  end.

Definition snapshot (h : heap) (v : val) : option tree :=
  snap (S (length h)) h v.

Definition reachable (h : heap) (v : val) : list loc :=
  reach (S (length h)) h v.

(** *** lodash's [cloneDeep]

    [baseClone] copies arrays and plain objects recursively and returns
    anything else as it is.  It records every object it has started to
    copy ([memo], lodash's [Stack]) and answers a second visit with the
    copy already made, so sharing and cycles inside the value survive. *)

Abbreviation cstate := (list obj * gmap nat nat)%type (only parsing).

Fixpoint cloneEach (clone : val → cstate → option (val * cstate))
    (vs : list val) (st : cstate) : option (list val * cstate) :=
  match vs with
  | [] => Some ([], st)
  | v :: vs' =>
      '(v', st1) ← clone v st;
      '(vs'', st2) ← cloneEach clone vs' st1;
      Some (v' :: vs'', st2)
  end.

Fixpoint baseClone (fuel : nat) (v : val) (st : cstate) : option (val * cstate) :=
  match v with
  | VRef l =>
      match st.2 !! l with
      | Some l' => Some (VRef l', st)
      | None =>
          match fuel with
          | O => None
          | S f =>
              o ← st.1 !! l;
              let l' := length st.1 in
              '(vs', st2) ← cloneEach (baseClone f) (obj_vals o)
                              (st.1 ++ [obj_with o []], <[l := l']> st.2);
              Some (VRef l', (<[l' := obj_with o vs']> st2.1, st2.2))
          end
      end
  | _ => Some (v, st)
  end.

Definition cloneDeep (v : val) (h : heap) : option (val * heap) :=
  '(v', st) ← baseClone (S (length h)) v (h, ∅);
  Some (v', st.1).

(** [Array.prototype.reverse]: in place. *)
Definition array_reverse (v : val) (h : heap) : option heap :=
  match v with
  | VRef l =>
      match h !! l with
      | Some (OArr es) => Some (<[l := OArr (reverse es)]> h)
      | _ => None
      end
  | _ => None
  end.

Definition object_values (v : val) (h : heap) : option (list val) :=
  match v with
  | VRef l => obj_vals <$> h !! l
  | _ => None
  end.

(** Property and index reads, within the typed fragment. *)
Definition getProp (h : heap) (v : val) (k : string) : option val :=
  match v with
  | VRef l =>
      match h !! l with
      | Some (OObj ps) => (λ r, r.2.2) <$> list_find (λ p : string * val, p.1 = k) ps
      | _ => None
      end
  | _ => None
  end.

Definition getIndex (h : heap) (v : val) (i : nat) : option val :=
  match v with
  | VRef l =>
      match h !! l with
      | Some (OArr es) => es !! i
      | _ => None
      end
  | _ => None
  end.

Definition toNumber (v : val) : option Z :=
  match v with
  | VNum n => Some n
  | _ => None
  end.

(** ** Numbers of the search: integers with the two infinities *)

Inductive num :=
| NegInf
| Fin (z : Z)
| PosInf.

(** [a < b] on JavaScript numbers. *)
Definition num_ltb (a b : num) : bool :=
  match a, b with
  | NegInf, NegInf => false
  | NegInf, _ => true
  | Fin x, Fin y => x <? y
  | Fin _, PosInf => true
  | _, _ => false
  end.

(** [a <= b]. *)
Definition num_leb (a b : num) : bool := negb (num_ltb b a).

(** [Math.max] and [Math.min]. *)
Definition num_max (a b : num) : num := if num_ltb a b then b else a.
Definition num_min (a b : num) : num := if num_ltb b a then b else a.

Definition num_lt (a b : num) : Prop := num_ltb a b = true.
Definition num_le (a b : num) : Prop := num_ltb b a = false.

Definition finite (a : num) : option Z :=
  match a with
  | Fin z => Some z
  | _ => None
  end.

(** ** chess.js: colours, pieces, moves, and the engine's interface *)

(** [PieceColor]: the strings w and b. *)
Inductive PieceColor := White | Black.

(** [PieceType]: the strings p, n, b, r, q and k. *)
Inductive PieceType := Pawn | Knight | Bishop | Rook | Queen | King.

#[global] Instance PieceColor_eq_dec : EqDecision PieceColor.
Proof. solve_decision. Defined.

#[global] Instance PieceType_eq_dec : EqDecision PieceType.
Proof. solve_decision. Defined.

(** The key of a piece in [PIECE_SQUARE_TABLES] and [PIECE_WEIGHTS]. *)
Definition piece_key (piece : PieceType) : string :=
  match piece with
  | Pawn => "p"
  | Knight => "n"
  | Bishop => "b"
  | Rook => "r"
  | Queen => "q"
  | King => "k"
  end.

Module Move.
(** chess.js's [Move]; [captured] and [promotion] are optional fields. *)
Record t := mk {
  color : PieceColor;
  from : string;
  to : string;
  flags : string;
  piece : PieceType;
  san : string;
  captured : option PieceType;
  promotion : option PieceType;
}.
End Move.

(** A variable that holds a move, [null], or nothing yet. *)
Inductive maybeMove :=
| Null
| Undefined
| AMove (m : Move.t).

Definition deref (m : maybeMove) : option Move.t :=
  match m with
  | AMove m => Some m
  | _ => None
  end.

(** The part of [ChessInstance] that the manager calls.  [move] takes a
    move in algebraic notation (left) or a move object (right) and
    answers with the move made, or [null]. *)
Class ChessInstance (E : Type) := {
  Chess : E;
  load : string → E → E;
  moves : E → list string;
  move : string + maybeMove → E → maybeMove * E;
  undo : E → E;
}.

(** [PieceChessPosition]: indices into a grid. *)
Record PieceChessPosition := { row : nat; column : nat }.

(** What the file imports from modules of the repository that are not at
    hand: [constants/chess-weights] and [utils/chess]. *)
Class Imports := {
  PIECE_WEIGHTS : PieceType → Z;
  PIECE_SQUARE_TABLES : val;
  getMatrixPosition : string → PieceChessPosition;
}.

(** ** The manager *)

Record ChessAiManager (E : Type) := {
  color : option PieceColor;
  aiSquareTables : val;
  opponentSquareTables : val;
  chessEngine : E;
  prevSum : Z;
}.
Arguments color {E}.
Arguments aiSquareTables {E}.
Arguments opponentSquareTables {E}.
Arguments chessEngine {E}.
Arguments prevSum {E}.

Section Manager.
Context {E : Type} `{ChessInstance E} `{Imports}.

Definition set_color (c : PieceColor) (this : ChessAiManager E) :=
  {| color := Some c; aiSquareTables := aiSquareTables this;
     opponentSquareTables := opponentSquareTables this;
     chessEngine := chessEngine this; prevSum := prevSum this |}.

Definition set_aiSquareTables (v : val) (this : ChessAiManager E) :=
  {| color := color this; aiSquareTables := v;
     opponentSquareTables := opponentSquareTables this;
     chessEngine := chessEngine this; prevSum := prevSum this |}.

Definition set_opponentSquareTables (v : val) (this : ChessAiManager E) :=
  {| color := color this; aiSquareTables := aiSquareTables this;
     opponentSquareTables := v;
     chessEngine := chessEngine this; prevSum := prevSum this |}.

Definition set_chessEngine (e : E) (this : ChessAiManager E) :=
  {| color := color this; aiSquareTables := aiSquareTables this;
     opponentSquareTables := opponentSquareTables this;
     chessEngine := e; prevSum := prevSum this |}.

Definition set_prevSum (s : Z) (this : ChessAiManager E) :=
  {| color := color this; aiSquareTables := aiSquareTables this;
     opponentSquareTables := opponentSquareTables this;
     chessEngine := chessEngine this; prevSum := s |}.

(** [new ChessAiManager()] *)
Definition constructor : ChessAiManager E :=
  {| color := None; aiSquareTables := VUndef; opponentSquareTables := VUndef;
     chessEngine := Chess; prevSum := 0 |}.

(** *** The table builder *)

Fixpoint reverse_each (vs : list val) (h : heap) : option heap :=
  match vs with
  | [] => Some h
  | value :: rest => h' ← array_reverse value h; reverse_each rest h'
  end.

Definition reverseSquareTablesForBlack (h : heap) : option (val * heap) :=
  '(cloned, h1) ← cloneDeep PIECE_SQUARE_TABLES h;
  values ← object_values cloned h1;
  h2 ← reverse_each values h1;
  Some (cloned, h2).

Definition blackStartInit (h : heap) (this : ChessAiManager E)
  : option (heap * ChessAiManager E) :=
  '(reversed, h1) ← reverseSquareTablesForBlack h;
  let this1 := set_aiSquareTables reversed this in
  '(cloned, h2) ← cloneDeep PIECE_SQUARE_TABLES h1;
  Some (h2, set_opponentSquareTables cloned this1).

Definition whiteStartInit (h : heap) (this : ChessAiManager E)
  : option (heap * ChessAiManager E) :=
  '(cloned, h1) ← cloneDeep PIECE_SQUARE_TABLES h;
  let this1 := set_aiSquareTables cloned this in
  '(reversed, h2) ← reverseSquareTablesForBlack h1;
  Some (h2, set_opponentSquareTables reversed this1).

(** *** The incremental evaluator *)

Definition squareTableValue (h : heap) (tables : val)
    (piece : PieceType) (chessPosition : PieceChessPosition) : option Z :=
  grid ← getProp h tables (piece_key piece);
  line ← getIndex h grid (row chessPosition);
  cell ← getIndex h line (column chessPosition);
  toNumber cell.

Definition getOpponentValueFromSquareTable (h : heap) (this : ChessAiManager E)
    (piece : PieceType) (chessPosition : PieceChessPosition) : option Z :=
  squareTableValue h (opponentSquareTables this) piece chessPosition.

Definition getAiValueFromSquareTable (h : heap) (this : ChessAiManager E)
    (piece : PieceType) (chessPosition : PieceChessPosition) : option Z :=
  squareTableValue h (aiSquareTables this) piece chessPosition.

(** The first [if] of [evaluateBoard]: the captured piece. *)
Definition captureStep (h : heap) (this : ChessAiManager E)
    (mv : Move.t) (newSum : Z) : option Z :=
  let toPos := getMatrixPosition (Move.to mv) in
  match Move.captured mv with
  | Some captured =>
      if bool_decide (Some (Move.color mv) = color this) then
        v ← getAiValueFromSquareTable h this captured toPos;
        Some (newSum + (PIECE_WEIGHTS captured + v))
      else
        v ← getOpponentValueFromSquareTable h this captured toPos;
        Some (newSum - (PIECE_WEIGHTS captured + v))
  | None => Some newSum
  end.

(** The then-branch of the second [if]: a move whose flags are p. *)
Definition promotionStep (h : heap) (this : ChessAiManager E)
    (mv : Move.t) (newSum : Z) : option Z :=
  let fromPos := getMatrixPosition (Move.from mv) in
  let toPos := getMatrixPosition (Move.to mv) in
  let piece := Move.piece mv in
  let promoted := Queen in
  if bool_decide (Some (Move.color mv) = color this) then
    v1 ← getAiValueFromSquareTable h this piece fromPos;
    let newSum := newSum - (PIECE_WEIGHTS piece + v1) in
    v2 ← getAiValueFromSquareTable h this promoted fromPos;
    Some (newSum + (PIECE_WEIGHTS promoted + v2))
  else
    v1 ← getOpponentValueFromSquareTable h this piece fromPos;
    let newSum := newSum + (PIECE_WEIGHTS piece + v1) in
    v2 ← getOpponentValueFromSquareTable h this piece toPos;
    Some (newSum - (PIECE_WEIGHTS promoted + v2)).

(** Its else-branch: a regular move. *)
Definition regularStep (h : heap) (this : ChessAiManager E)
    (mv : Move.t) (newSum : Z) : option Z :=
  let fromPos := getMatrixPosition (Move.from mv) in
  let toPos := getMatrixPosition (Move.to mv) in
  let piece := Move.piece mv in
  if bool_decide (Some (Move.color mv) = color this) then
    v1 ← getAiValueFromSquareTable h this piece fromPos;
    let newSum := newSum - v1 in
    v2 ← getAiValueFromSquareTable h this piece toPos;
    Some (newSum + v2)
  else
    v1 ← getAiValueFromSquareTable h this piece fromPos;
    let newSum := newSum + v1 in
    v2 ← getAiValueFromSquareTable h this piece toPos;
    Some (newSum - v2).

Definition evaluateBoard (h : heap) (this : ChessAiManager E)
    (mv : Move.t) (prevSum : Z) : option Z :=
  let newSum := prevSum in
  newSum ← captureStep h this mv newSum;
  if String.eqb (Move.flags mv) "p" then promotionStep h this mv newSum
  else regularStep h this mv newSum.

(** *** The search *)

(** The local variables of [minimax] that its loop updates. *)
Record locals := {
  maxVal : num;
  bestMove : maybeMove;
  minVal : num;
  alpha : num;
  beta : num;
}.

(** The type of [minimax] once its depth and [isMaximizingPlayer] are
    fixed: from [sum], [alpha], [beta] and the manager to the pair it returns
    and the manager it leaves. *)
Abbreviation searchFn :=
  (Z → num → num → ChessAiManager E →
   option ((maybeMove * num) * ChessAiManager E)) (only parsing).

(** What follows [this.chessEngine.undo()] in the loop body: the new
    locals, and whether the loop breaks. *)
Definition visit (isMaximizingPlayer : bool) (currentMove : maybeMove)
    (childValue : num) (st : locals) : locals * bool :=
  if isMaximizingPlayer then
    let st1 :=
      if num_ltb (maxVal st) childValue then
        {| maxVal := childValue; bestMove := currentMove;
           minVal := minVal st; alpha := alpha st; beta := beta st |}
      else st in
    let st2 :=
      {| maxVal := maxVal st1; bestMove := bestMove st1; minVal := minVal st1;
         alpha := num_max (alpha st1) childValue; beta := beta st1 |} in
    (st2, num_leb (beta st2) (alpha st2))
  else
    let st1 :=
      if num_ltb childValue (minVal st) then
        {| maxVal := maxVal st; bestMove := currentMove;
           minVal := childValue; alpha := alpha st; beta := beta st |}
      else st in
    let st2 :=
      {| maxVal := maxVal st1; bestMove := bestMove st1; minVal := minVal st1;
         alpha := alpha st1; beta := num_min childValue (beta st1) |} in
    (st2, num_leb (beta st2) (alpha st2)).

(** The [for] loop of [minimax] over the moves still to try; [child] is
    the recursive call at [depth - 1] and [!isMaximizingPlayer]. *)
Fixpoint minimax_loop (child : searchFn) (h : heap) (sum : Z)
    (isMaximizingPlayer : bool) (todo : list string) (st : locals)
    (this : ChessAiManager E) : option (locals * ChessAiManager E) :=
  match todo with
  | [] => Some (st, this)
  | moveNotation :: rest =>
      let '(currentMove, e1) := move (inl moveNotation) (chessEngine this) in
      let this1 := set_chessEngine e1 this in
      mv ← deref currentMove;
      newSum ← evaluateBoard h this1 mv sum;
      '((_, childValue), this2) ← child newSum (alpha st) (beta st) this1;
      let this3 := set_chessEngine (undo (chessEngine this2)) this2 in
      let '(st', stop) := visit isMaximizingPlayer currentMove childValue st in
      if stop then Some (st', this3)
      else minimax_loop child h sum isMaximizingPlayer rest st' this3
  end.

(** [minimax].  A score that is not a number leaves the fragment: where a
    lookup of the evaluator is answered with [undefined], the source goes
    on with [NaN], which fails every comparison of the loop, and the
    result here is [None].  What is proved of the values and moves that
    the search returns is therefore stated where the moves can be scored
    ([scorable] below), or of the runs that stay inside the fragment. *)
Fixpoint minimax (h : heap) (depth : nat) (sum : Z) (isMaximizingPlayer : bool)
    (alpha beta : num) (this : ChessAiManager E)
  : option ((maybeMove * num) * ChessAiManager E) :=
  let st0 := {| maxVal := NegInf; bestMove := Undefined; minVal := PosInf;
                alpha := alpha; beta := beta |} in
  let todo := moves (chessEngine this) in
  match depth, todo with
  | O, _ | _, [] => Some ((Null, Fin sum), this)
  | S d, _ =>
      '(st, this') ← minimax_loop
                       (λ newSum, minimax h d newSum (negb isMaximizingPlayer))
                       h sum isMaximizingPlayer todo st0 this;
      if isMaximizingPlayer then Some ((bestMove st, maxVal st), this')
      else Some ((bestMove st, minVal st), this')
  end.

(** *** The session's operations *)

Definition isWhite (this : ChessAiManager E) : bool :=
  bool_decide (color this = Some White).

Definition isBlack (this : ChessAiManager E) : bool :=
  bool_decide (color this = Some Black).

Definition init (c : PieceColor) (fen : string) (h : heap)
    (this : ChessAiManager E) : option (heap * ChessAiManager E) :=
  let this1 := set_color c this in
  let this2 := set_chessEngine (load fen (chessEngine this1)) this1 in
  if isBlack this2 then blackStartInit h this2
  else whiteStartInit h this2.

Definition updateBoardWithPlayerMove (mv : Move.t) (h : heap)
    (this : ChessAiManager E) : option (ChessAiManager E) :=
  let this1 :=
    set_chessEngine (move (inr (AMove mv)) (chessEngine this)).2 this in
  s ← evaluateBoard h this1 mv (prevSum this1);
  Some (set_prevSum s this1).

Definition calcAiMove (h : heap) (this : ChessAiManager E)
  : option (maybeMove * ChessAiManager E) :=
  '((mv, sum), this1) ← minimax h 3 (prevSum this) true NegInf PosInf this;
  s ← finite sum;
  let this2 := set_prevSum s this1 in
  let this3 := set_chessEngine (move (inr mv) (chessEngine this2)).2 this2 in
  Some (mv, this3).

End Manager.

(** ** Vocabulary of the statements

    Nothing below is part of the source: these definitions name what the
    properties are about. *)

(** *** Reading tables *)

(** The grid under key [k], the row of index [i] of a grid, and both. *)
Definition tree_prop (t : tree) (k : string) : option tree :=
  match t with
  | TObj props => (λ r, r.2.2) <$> list_find (λ p : string * tree, p.1 = k) props
  | _ => None
  end.

Definition tree_index (t : tree) (i : nat) : option tree :=
  match t with
  | TArr es => es !! i
  | _ => None
  end.

Definition grid_row (t : tree) (k : string) (i : nat) : option tree :=
  g ← tree_prop t k; tree_index g i.

(** A table set: an object that holds, under every key, an array of
    eight rows. *)
Definition table_set (t : tree) : Prop :=
  match t with
  | TObj props =>
      Forall (λ p, ∃ rows, p.2 = TArr rows ∧ length rows = 8%nat) props
  | _ => False
  end.

Definition is_array (t : tree) : Prop := ∃ rows, t = TArr rows.

(** A grid with its rows in reverse order, and a table set with every
    grid so reversed. *)
Definition reverse_grid (t : tree) : tree :=
  match t with
  | TArr rows => TArr (reverse rows)
  | _ => t
  end.

Definition reverse_rows (t : tree) : tree :=
  match t with
  | TObj props => TObj (prod_map id reverse_grid <$> props)
  | _ => t
  end.

(** *** What a copy is

    [res] is the outcome of copying [v], which denotes [t], from the store
    [h] with the record [memo]: the store has only grown, the copy denotes
    [t], it is made of new objects, none of them used twice, and the
    record has changed only at the objects of [v]. *)
Definition cloned_from (f : nat) (h : heap) (memo : gmap nat nat)
    (v : val) (t : tree) (res : val * cstate) : Prop :=
  (length h ≤ length res.2.1)%nat ∧
  (∀ l, (l < length h)%nat → res.2.1 !! l = h !! l) ∧
  snap f res.2.1 res.1 = Some t ∧
  NoDup (reach f res.2.1 res.1) ∧
  (∀ l, l ∈ reach f res.2.1 res.1 → (length h ≤ l < length res.2.1)%nat) ∧
  (∀ l, l ∉ reach f h v → res.2.2 !! l = memo !! l).

Definition cloned_all (f : nat) (h : heap) (memo : gmap nat nat)
    (vs : list val) (ts : list tree) (res : list val * cstate) : Prop :=
  (length h ≤ length res.2.1)%nat ∧
  (∀ l, (l < length h)%nat → res.2.1 !! l = h !! l) ∧
  mapM (snap f res.2.1) res.1 = Some ts ∧
  NoDup (res.1 ≫= reach f res.2.1) ∧
  (∀ l, l ∈ res.1 ≫= reach f res.2.1 → (length h ≤ l < length res.2.1)%nat) ∧
  (∀ l, l ∉ vs ≫= reach f h → res.2.2 !! l = memo !! l).

Section Vocabulary.
Context {E : Type} `{ChessInstance E} `{Imports}.

(** *** The evaluator's adjustments *)

(** The amounts by which the three branches of [evaluateBoard] change
    the score. *)
Definition captureAdjustment (h : heap) (this : ChessAiManager E)
    (mv : Move.t) : option Z :=
  match Move.captured mv with
  | None => Some 0
  | Some captured =>
      if bool_decide (Some (Move.color mv) = color this) then
        v ← getAiValueFromSquareTable h this captured
              (getMatrixPosition (Move.to mv));
        Some (PIECE_WEIGHTS captured + v)
      else
        v ← getOpponentValueFromSquareTable h this captured
              (getMatrixPosition (Move.to mv));
        Some (- (PIECE_WEIGHTS captured + v))
  end.

Definition promotionAdjustment (h : heap) (this : ChessAiManager E)
    (mv : Move.t) : option Z :=
  let fromPos := getMatrixPosition (Move.from mv) in
  let toPos := getMatrixPosition (Move.to mv) in
  if bool_decide (Some (Move.color mv) = color this) then
    v1 ← getAiValueFromSquareTable h this (Move.piece mv) fromPos;
    v2 ← getAiValueFromSquareTable h this Queen fromPos;
    Some ((PIECE_WEIGHTS Queen + v2) - (PIECE_WEIGHTS (Move.piece mv) + v1))
  else
    v1 ← getOpponentValueFromSquareTable h this (Move.piece mv) fromPos;
    v2 ← getOpponentValueFromSquareTable h this (Move.piece mv) toPos;
    Some ((PIECE_WEIGHTS (Move.piece mv) + v1) - (PIECE_WEIGHTS Queen + v2)).

Definition regularAdjustment (h : heap) (this : ChessAiManager E)
    (mv : Move.t) : option Z :=
  let fromPos := getMatrixPosition (Move.from mv) in
  let toPos := getMatrixPosition (Move.to mv) in
  v1 ← getAiValueFromSquareTable h this (Move.piece mv) fromPos;
  v2 ← getAiValueFromSquareTable h this (Move.piece mv) toPos;
  if bool_decide (Some (Move.color mv) = color this)
  then Some (v2 - v1) else Some (v1 - v2).

(** *** Plain minimax *)

(** Plain minimax over the same tree: the same traversal with no bounds
    and no early exit.  It is the reference that the pruning search is
    compared with, not part of the source. *)
Definition visit_plain (isMaximizingPlayer : bool) (currentMove : maybeMove)
    (childValue : num) (best : maybeMove * num) : maybeMove * num :=
  if isMaximizingPlayer then
    if num_ltb best.2 childValue then (currentMove, childValue) else best
  else
    if num_ltb childValue best.2 then (currentMove, childValue) else best.

Fixpoint plain_loop
    (child : Z → ChessAiManager E → option ((maybeMove * num) * ChessAiManager E))
    (h : heap) (sum : Z) (isMaximizingPlayer : bool) (todo : list string)
    (best : maybeMove * num) (this : ChessAiManager E)
  : option ((maybeMove * num) * ChessAiManager E) :=
  match todo with
  | [] => Some (best, this)
  | moveNotation :: rest =>
      let '(currentMove, e1) := move (inl moveNotation) (chessEngine this) in
      let this1 := set_chessEngine e1 this in
      mv ← deref currentMove;
      newSum ← evaluateBoard h this1 mv sum;
      '((_, childValue), this2) ← child newSum this1;
      let this3 := set_chessEngine (undo (chessEngine this2)) this2 in
      plain_loop child h sum isMaximizingPlayer rest
        (visit_plain isMaximizingPlayer currentMove childValue best) this3
  end.

Fixpoint plain_minimax (h : heap) (depth : nat) (sum : Z)
    (isMaximizingPlayer : bool) (this : ChessAiManager E)
  : option ((maybeMove * num) * ChessAiManager E) :=
  let todo := moves (chessEngine this) in
  match depth, todo with
  | O, _ | _, [] => Some ((Null, Fin sum), this)
  | S d, _ =>
      plain_loop (λ newSum, plain_minimax h d newSum (negb isMaximizingPlayer))
        h sum isMaximizingPlayer todo
        (Undefined, if isMaximizingPlayer then NegInf else PosInf) this
  end.

(** Every move that the engine offers can be made and scored: the engine
    answers its own notations with a move, and the tables have an entry
    for each piece and square that the evaluator looks up for it. *)
Definition scorable (h : heap) (this : ChessAiManager E) : Prop :=
  ∀ (e : E) (n : string), n ∈ moves e →
    ∃ mv, (move (inl n) e).1 = AMove mv ∧
          ∀ s, is_Some (evaluateBoard h this mv s).

End Vocabulary.

(** *** Windows and bests *)

(** The value that a node holds as its best so far. *)
Definition bestVal (isMaximizingPlayer : bool) (st : locals) : num :=
  if isMaximizingPlayer then maxVal st else minVal st.

(** [a] is at least as good as [b] for the side that chooses. *)
Definition no_worse (isMaximizingPlayer : bool) (a b : num) : Prop :=
  if isMaximizingPlayer then num_le b a else num_le a b.

(** [a] is strictly better than [b] for the side that chooses. *)
Definition better (isMaximizingPlayer : bool) (a b : num) : bool :=
  if isMaximizingPlayer then num_ltb b a else num_ltb a b.

(** What a search with the window from [a] to [b] owes to the exact
    value [x]: the exact value inside the window, and a value on the same
    side outside of it. *)
Definition bounded (a b x v : num) : Prop :=
  (num_le x a → num_le v a) ∧ (num_le b x → num_le b v) ∧
  (num_lt a x → num_lt x b → v = x).

Definition within (a b x v : num) (m m' : maybeMove) : Prop :=
  bounded a b x v ∧ (num_lt a x → num_lt x b → m' = m).

(** The loop invariant that ties the locals of the pruning loop, entered
    with the window from [a0] to [b0], to the best move and value of the
    plain loop over the same children. *)
Definition tied (b : bool) (a0 b0 : num) (st : locals) (best : maybeMove * num)
  : Prop :=
  num_lt (alpha st) (beta st) ∧
  if b then
    alpha st = num_max a0 (maxVal st) ∧ beta st = b0 ∧
    (num_le best.2 a0 → num_le (maxVal st) a0) ∧
    (num_lt a0 best.2 → maxVal st = best.2 ∧ bestMove st = best.1)
  else
    alpha st = a0 ∧ beta st = num_min (minVal st) b0 ∧
    (num_le b0 best.2 → num_le b0 (minVal st)) ∧
    (num_lt best.2 b0 → minVal st = best.2 ∧ bestMove st = best.1).

(** *** Further vocabulary *)

(** A number moved by [k]; the infinities stay. *)
Definition num_shift (k : Z) (a : num) : num :=
  match a with
  | Fin z => Fin (z + k)
  | _ => a
  end.

(** The number that a table set holds for a key and a position. *)
Definition tree_number (t : tree) : option Z :=
  match t with
  | TNum n => Some n
  | _ => None
  end.

Definition tree_value (t : tree) (k : string) (pos : PieceChessPosition)
  : option Z :=
  g ← tree_prop t k;
  line ← tree_index g (row pos);
  cell ← tree_index line (column pos);
  tree_number cell.

(** A grid of eight rows of eight numbers, and a table set with such a
    grid for each of the six pieces. *)
Definition full_grid (g : tree) : Prop :=
  ∃ rows, g = TArr rows ∧ length rows = 8%nat ∧
    Forall (λ r, ∃ cells, r = TArr cells ∧ length cells = 8%nat ∧
                          Forall (λ c, ∃ n, c = TNum n) cells) rows.

Definition full_tables (t : tree) : Prop :=
  ∀ piece, ∃ g, tree_prop t (piece_key piece) = Some g ∧ full_grid g.

(** Among the children [seen], in the order in which they were tried,
    [final] is the earliest of the best: either no child is strictly
    better than [start], which is then kept, or [final] is a child that
    is strictly better than [start] and than every child tried before
    it, and no child tried after it is strictly better than it. *)
Definition earliest_best (isMaximizingPlayer : bool)
    (start : maybeMove * num) (seen : list (maybeMove * num))
    (final : maybeMove * num) : Prop :=
  ((∀ c, c ∈ seen → better isMaximizingPlayer c.2 start.2 = false) ∧
   final = start) ∨
  ∃ j, seen !! j = Some final ∧
       better isMaximizingPlayer final.2 start.2 = true ∧
       (∀ i c, (i < j)%nat → seen !! i = Some c →
               better isMaximizingPlayer final.2 c.2 = true) ∧
       (∀ i c, (j < i)%nat → seen !! i = Some c →
               better isMaximizingPlayer c.2 final.2 = false).

Section Callers.
Context {E : Type} `{ChessInstance E} `{Imports}.

(** The [i]-th child of a node as the loop reaches it: the move that the
    engine returns for the [i]-th notation of [todo], made in the position
    that the loop leaves after the first [i] notations, and the value that
    [child] returns for it with the window held at that point. *)
Definition nth_child
    (child : Z → num → num → ChessAiManager E →
             option ((maybeMove * num) * ChessAiManager E))
    (h : heap) (sum : Z) (isMaximizingPlayer : bool) (todo : list string)
    (st : locals) (this : ChessAiManager E) (i : nat)
  : option (maybeMove * num) :=
  '(st_i, this_i) ← minimax_loop child h sum isMaximizingPlayer
                      (take i todo) st this;
  moveNotation ← todo !! i;
  let '(currentMove, e1) := move (inl moveNotation) (chessEngine this_i) in
  let this1 := set_chessEngine e1 this_i in
  mv ← deref currentMove;
  newSum ← evaluateBoard h this1 mv sum;
  r ← child newSum (alpha st_i) (beta st_i) this1;
  Some (currentMove, r.1.2).

(** The application reporting the player's moves one after the other:
    [updateBoardWithPlayerMove] called on each move of a list. *)
Fixpoint recordMoves (mvs : list Move.t) (h : heap) (this : ChessAiManager E)
  : option (ChessAiManager E) :=
  match mvs with
  | [] => Some this
  | mv :: rest =>
      this1 ← updateBoardWithPlayerMove mv h this;
      recordMoves rest h this1
  end.

(** The score at the end of a line of play: the notations of [path] are
    made one after the other from the position [e], each legal where it
    is made, and each move is scored by [evaluateBoard]. *)
Fixpoint line_score (h : heap) (this : ChessAiManager E) (e : E) (sum : Z)
    (path : list string) : option Z :=
  match path with
  | [] => Some sum
  | n :: rest =>
      if decide (n ∈ moves e) then
        mv ← deref (move (inl n) e).1;
        newSum ← evaluateBoard h this mv sum;
        line_score h this (move (inl n) e).2 newSum rest
      else None
  end.

(** The locals of [minimax] with their numbers moved by [k]. *)
Definition shift_locals (k : Z) (st : locals) : locals :=
  {| maxVal := num_shift k (maxVal st); bestMove := bestMove st;
     minVal := num_shift k (minVal st); alpha := num_shift k (alpha st);
     beta := num_shift k (beta st) |}.

(** A node holds a line: its best move is the first move of a line of
    play of at most [S d] moves, and its best value is the score at the
    end of that line. *)
Definition holds_line (h : heap) (this : ChessAiManager E) (sum : Z)
    (d : nat) (b : bool) (st : locals) : Prop :=
  ∃ n path z,
    n ∈ moves (chessEngine this) ∧ (length path ≤ d)%nat ∧
    line_score h this (chessEngine this) sum (n :: path) = Some z ∧
    bestVal b st = Fin z ∧
    bestMove st = (move (inl n) (chessEngine this)).1.

(** The result of a search with its value moved by [k]. *)
Definition shift_result (k : Z)
    (r : (maybeMove * num) * ChessAiManager E)
  : (maybeMove * num) * ChessAiManager E :=
  ((r.1.1, num_shift k r.1.2), r.2).

End Callers.


(** ** A small instance

    Concrete tables, weights and a toy rules engine, on which the
    definitions above can be run. *)

Module Sample.

(** Six 8x8 grids with pairwise different entries: the entry of piece
    number [i] at row [r], column [c] is [100 i + 8 r + c]. *)
Definition line (i r : nat) : obj :=
  OArr ((λ c, VNum (Z.of_nat (100 * i + 8 * r + c))) <$> seq 0 8).

Definition grid (i : nat) : list obj :=
  (line i <$> seq 0 8) ++ [OArr (VRef <$> seq (9 * i) 8)].

Definition store : heap :=
  flat_map grid (seq 0 6) ++
  [OObj [("p", VRef 8); ("n", VRef 17); ("b", VRef 26);
         ("r", VRef 35); ("q", VRef 44); ("k", VRef 53)]%string].

(** A square in algebraic notation to its matrix position: file a is
    column 0, rank 8 is row 0. *)
Definition matrixPosition (square : string) : PieceChessPosition :=
  match square with
  | String f (String r EmptyString) =>
      {| row := 8 - (Ascii.nat_of_ascii r - 48);
         column := Ascii.nat_of_ascii f - 97 |}
  | _ => {| row := 0; column := 0 |}
  end.

Definition weights (piece : PieceType) : Z :=
  match piece with
  | Pawn => 100
  | Knight => 280
  | Bishop => 320
  | Rook => 479
  | Queen => 929
  | King => 60000
  end.

#[global] Instance imports : Imports := {|
  PIECE_WEIGHTS := weights;
  PIECE_SQUARE_TABLES := VRef 54;
  getMatrixPosition := matrixPosition;
|}.

(** The toy engine keeps the notations played, latest first.  Up to
    [horizon] plies each position offers the same three moves; who moves
    follows from the parity of the history. *)
Definition horizon : nat := 4.

Definition toMove (e : list string) : PieceColor :=
  if Nat.even (length e) then White else Black.

Definition push (c : PieceColor) : Move.t :=
  {| Move.color := c;
     Move.from := if c is White then "e2" else "e7";
     Move.to := if c is White then "e4" else "e5";
     Move.flags := "b"; Move.piece := Pawn; Move.san := "e";
     Move.captured := None; Move.promotion := None |}%string.

Definition takes (c : PieceColor) : Move.t :=
  {| Move.color := c;
     Move.from := if c is White then "f3" else "f6";
     Move.to := if c is White then "d4" else "d5";
     Move.flags := "c"; Move.piece := Knight; Move.san := "Nxd";
     Move.captured := Some Bishop; Move.promotion := None |}%string.

Definition promotes (c : PieceColor) : Move.t :=
  {| Move.color := c;
     Move.from := if c is White then "a7" else "a2";
     Move.to := if c is White then "a8" else "a1";
     Move.flags := "p"; Move.piece := Pawn; Move.san := "a=N";
     Move.captured := None; Move.promotion := Some Knight |}%string.

(** A promotion as chess.js reports it: the flags of a promotion are
    [np] without a capture and [cp] with one, never [p] alone. *)
Definition promotesTo (c : PieceColor) (promoted : PieceType) : Move.t :=
  {| Move.color := c;
     Move.from := if c is White then "a7" else "a2";
     Move.to := if c is White then "a8" else "a1";
     Move.flags := "np"; Move.piece := Pawn; Move.san := "a8";
     Move.captured := None; Move.promotion := Some promoted |}%string.

Definition offered (e : list string) : list Move.t :=
  if (length e <? horizon)%nat
  then [push (toMove e); takes (toMove e); promotes (toMove e)]
  else [].

Definition play (san : string) (e : list string) : maybeMove * list string :=
  match list_find (λ m, Move.san m = san) (offered e) with
  | Some (_, m) => (AMove m, san :: e)
  | None => (Null, e)
  end.

#[global] Instance engine : ChessInstance (list string) := {|
  Chess := [];
  load _ _ := [];
  moves e := Move.san <$> offered e;
  move x e :=
    match x with
    | inl san => play san e
    | inr (AMove m) => play (Move.san m) e
    | inr _ => (Null, e)
    end;
  undo e := tail e;
|}.

(** The manager after [init] with either colour, in the sample store. *)
Definition whiteSession : option (heap * ChessAiManager (list string)) :=
  init White "start" store constructor.

Definition blackSession : option (heap * ChessAiManager (list string)) :=
  init Black "start" store constructor.

(** The locals of a maximizing node that holds the pawn push as its best
    move, with the value 1637. *)
Definition holdingPush : locals :=
  {| maxVal := Fin 1637; bestMove := AMove (push White); minVal := PosInf;
     alpha := Fin 1637; beta := PosInf |}.

Definition whiteHeap : heap := from_option fst [] whiteSession.
Definition whiteManager : ChessAiManager (list string) :=
  from_option snd constructor whiteSession.
Definition blackHeap : heap := from_option fst [] blackSession.
Definition blackManager : ChessAiManager (list string) :=
  from_option snd constructor blackSession.

End Sample.

(** * Properties *)

(** ** The store *)

Lemma mapM_ext_Forall {A B} (f g : A → option B) l :
  Forall (λ x, f x = g x) l → mapM f l = mapM g l.
Proof. induction 1 as [|x l Hx _ IH]; simpl; [done|]. by rewrite Hx, IH. Qed.

Lemma bind_ext_Forall {A B} (f g : A → list B) l :
  Forall (λ x, f x = g x) l → l ≫= f = l ≫= g.
Proof. induction 1 as [|x l Hx _ IH]; csimpl; [done|]. by rewrite Hx, IH. Qed.

(** Reading a value only looks at the locations in its reach. *)
Lemma snap_reach_agree f : ∀ (h h' : list obj) v,
  (∀ l, l ∈ reach f h v → h' !! l = h !! l) →
  snap f h' v = snap f h v ∧ reach f h' v = reach f h v.
Proof.
  induction f as [|f IH]; intros h h' [| |l] Hag; simpl in *; try done.
  rewrite (Hag l) by left.
  destruct (h !! l) as [o|] eqn:Hl; simpl; [|done].
  assert (Forall (λ v, snap f h' v = snap f h v ∧ reach f h' v = reach f h v)
            (obj_vals o)) as Hall.
  { apply Forall_forall. intros v Hv. apply IH. intros l0 Hl0.
    apply Hag. right. apply list_elem_of_bind. eauto. }
  rewrite (mapM_ext_Forall (snap f h') (snap f h)), (bind_ext_Forall (reach f h') (reach f h)).
  - done.
  - eapply Forall_impl; [done|]. by intros ? [].
  - eapply Forall_impl; [done|]. by intros ? [].
Qed.

Lemma snap_reach_valid f : ∀ (h : list obj) v t,
  snap f h v = Some t → ∀ l, l ∈ reach f h v → (l < length h)%nat.
Proof.
  induction f as [|f IH]; intros h [| |l] t Hs l0 Hl0; simpl in *;
    try by apply elem_of_nil in Hl0.
  { done. }
  destruct (h !! l) as [o|] eqn:Hl; simpl in *; [|done].
  destruct (mapM (snap f h) (obj_vals o)) as [ts|] eqn:Hts; simpl in *; [|done].
  apply elem_of_cons in Hl0 as [->|Hl0].
  { by eapply lookup_lt_Some. }
  apply list_elem_of_bind in Hl0 as (v & Hl0 & Hv).
  apply mapM_Some in Hts.
  apply list_elem_of_lookup in Hv as [i Hi].
  eapply Forall2_lookup_l in Hts as (t' & _ & Ht'); [|done].
  by eapply IH.
Qed.

(** More fuel reads the same. *)
Lemma snap_fuel f : ∀ (h : list obj) v t f',
  snap f h v = Some t → (f ≤ f')%nat →
  snap f' h v = Some t ∧ reach f' h v = reach f h v.
Proof.
  induction f as [|f IH]; intros h [| |l] t f' Hs Hle; simpl in *; try done;
    try by destruct f'.
  destruct f' as [|f']; [lia|]. simpl.
  destruct (h !! l) as [o|] eqn:Hl; simpl in *; [|done].
  destruct (mapM (snap f h) (obj_vals o)) as [ts|] eqn:Hts; simpl in *; [|done].
  assert (Forall (λ v, snap f' h v = snap f h v ∧ reach f' h v = reach f h v)
            (obj_vals o)) as Hall.
  { apply Forall_forall. intros v Hv.
    apply mapM_Some in Hts. apply list_elem_of_lookup in Hv as [i Hi].
    eapply Forall2_lookup_l in Hts as (t' & _ & Ht'); [|done].
    destruct (IH h v t' f' Ht') as [-> ->]; [lia|]. by rewrite Ht'. }
  rewrite (mapM_ext_Forall (snap f' h) (snap f h)), (bind_ext_Forall (reach f' h) (reach f h)).
  - by rewrite Hts.
  - eapply Forall_impl; [done|]. by intros ? [].
  - eapply Forall_impl; [done|]. by intros ? [].
Qed.


Lemma snaps_reach_agree f (h h' : list obj) vs :
  (∀ l, l ∈ vs ≫= reach f h → h' !! l = h !! l) →
  mapM (snap f h') vs = mapM (snap f h) vs ∧
  vs ≫= reach f h' = vs ≫= reach f h.
Proof.
  intros Hag.
  assert (Forall (λ v, snap f h' v = snap f h v ∧ reach f h' v = reach f h v) vs)
    as Hall.
  { apply Forall_forall. intros v Hv. apply snap_reach_agree. intros l Hl.
    apply Hag, list_elem_of_bind. eauto. }
  split.
  - apply mapM_ext_Forall. eapply Forall_impl; [done|]. by intros ? [].
  - apply bind_ext_Forall. eapply Forall_impl; [done|]. by intros ? [].
Qed.

Lemma snaps_reach_valid f (h : list obj) vs ts :
  mapM (snap f h) vs = Some ts →
  ∀ l, l ∈ vs ≫= reach f h → (l < length h)%nat.
Proof.
  intros Hts l Hl. apply list_elem_of_bind in Hl as (v & Hl & Hv).
  apply mapM_Some in Hts. apply list_elem_of_lookup in Hv as [i Hi].
  eapply Forall2_lookup_l in Hts as (t' & _ & Ht'); [|done].
  by eapply snap_reach_valid.
Qed.

Lemma cloneEach_tree f :
  (∀ v h memo t,
     snap f h v = Some t → NoDup (reach f h v) →
     (∀ l, l ∈ reach f h v → memo !! l = None) →
     ∃ res, baseClone f v (h, memo) = Some res ∧ cloned_from f h memo v t res) →
  ∀ vs h memo ts,
    mapM (snap f h) vs = Some ts → NoDup (vs ≫= reach f h) →
    (∀ l, l ∈ vs ≫= reach f h → memo !! l = None) →
    ∃ res, cloneEach (baseClone f) vs (h, memo) = Some res ∧
           cloned_all f h memo vs ts res.
Proof.
  intros IHf. induction vs as [|v vs IH]; intros h memo ts Hts Hnd Hmemo.
  { simplify_eq/=. eexists. split; [done|].
    unfold cloned_all; simpl.
    split_and!; [lia|done|done|constructor|by intros ? ?%elem_of_nil|done]. }
  apply mapM_Some, Forall2_cons_inv_l in Hts as (t & ts' & Ht & Hts' & ->).
  apply mapM_Some in Hts'.
  rewrite bind_cons in Hnd, Hmemo.
  apply NoDup_app in Hnd as (Hnd1 & Hdisj & Hnd2).
  destruct (IHf v h memo t Ht Hnd1) as ([v' [h1 memo1]] & Hc1 & H1).
  { intros l Hl. apply Hmemo, elem_of_app. by left. }
  destruct H1 as (Hlen1 & Hold1 & Hs1 & Hnd1' & Hb1 & Hm1); simpl in *.
  destruct (snaps_reach_agree f h h1 vs) as [Hsa Hra].
  { intros l Hl. apply Hold1. by eapply snaps_reach_valid. }
  destruct (IH h1 memo1 ts') as ([vs' [h2 memo2]] & Hc2 & H2).
  { by rewrite Hsa. }
  { by rewrite Hra. }
  { intros l Hl. rewrite Hra in Hl. rewrite Hm1.
    - apply Hmemo, elem_of_app. by right.
    - intros Hl'. by eapply Hdisj. }
  destruct H2 as (Hlen2 & Hold2 & Hs2 & Hnd2' & Hb2 & Hm2); simpl in *.
  destruct (snap_reach_agree f h1 h2 v') as [Hsv Hrv].
  { intros l Hl. apply Hold2. apply Hb1 in Hl. lia. }
  exists (v' :: vs', (h2, memo2)). split.
  { rewrite Hc1. simpl. rewrite Hc2. done. }
  unfold cloned_all. cbn [fst snd]. rewrite !bind_cons. split_and!.
  - lia.
  - intros l Hl. rewrite Hold2 by lia. by apply Hold1.
  - apply mapM_Some. constructor; [congruence|by apply mapM_Some].
  - apply NoDup_app. split_and!; [by rewrite Hrv| |done].
    intros l Hl Hl'. rewrite Hrv in Hl. apply Hb1 in Hl. apply Hb2 in Hl'. lia.
  - intros l. rewrite elem_of_app, Hrv.
    intros [Hl|Hl]; [apply Hb1 in Hl|apply Hb2 in Hl]; lia.
  - intros l Hl. rewrite elem_of_app in Hl.
    rewrite Hm2, Hm1; [done|tauto|]. rewrite Hra. tauto.
Qed.

Lemma obj_with_vals o vs :
  length vs = length (obj_vals o) → obj_vals (obj_with o vs) = vs.
Proof.
  destruct o as [es|ps]; simpl; [done|]. intros Hlen.
  rewrite length_fmap in Hlen. apply snd_zip. rewrite length_fmap. lia.
Qed.

Lemma tree_with_obj_with o vs ts :
  length vs = length (obj_vals o) → tree_with (obj_with o vs) ts = tree_with o ts.
Proof.
  destruct o as [es|ps]; simpl; [done|]. intros Hlen.
  rewrite length_fmap in Hlen. rewrite fst_zip; [done|]. rewrite length_fmap. lia.
Qed.

Lemma baseClone_tree f : ∀ v h memo t,
  snap f h v = Some t → NoDup (reach f h v) →
  (∀ l, l ∈ reach f h v → memo !! l = None) →
  ∃ res, baseClone f v (h, memo) = Some res ∧ cloned_from f h memo v t res.
Proof.
  assert (∀ f v h memo t, (∀ l, v ≠ VRef l) → snap f h v = Some t →
            ∃ res, baseClone f v (h, memo) = Some res ∧
                   cloned_from f h memo v t res) as Hprim.
  { intros f0 v h memo t Hv Hs. exists (v, (h, memo)). split.
    { destruct v, f0; simpl; try done; by destruct (Hv l). }
    unfold cloned_from; cbn [fst snd].
    assert (reach f0 h v = []) as -> by (destruct v, f0; try done; by destruct (Hv l)).
    split_and!; [lia|done|done|constructor|by intros ? ?%elem_of_nil|done]. }
  induction f as [|f IH]; intros v h memo t Hs Hnd Hmemo.
  { destruct v as [| |l]; try done; by apply Hprim. }
  destruct v as [| |l]; try by apply Hprim.
  simpl in Hs, Hnd, Hmemo. simpl.
  rewrite (Hmemo l) by left.
  destruct (h !! l) as [o|] eqn:Hl; simpl in *; [|done].
  destruct (mapM (snap f h) (obj_vals o)) as [ts|] eqn:Hts; simpl in Hs; [|done].
  simplify_eq.
  apply NoDup_cons in Hnd as [Hl_out Hnd].
  set (h1 := h ++ [obj_with o []]).
  assert (∀ l0, (l0 < length h)%nat → h1 !! l0 = h !! l0) as Hold0.
  { intros l0 Hl0. unfold h1. by rewrite lookup_app_l. }
  destruct (snaps_reach_agree f h h1 (obj_vals o)) as [Hsa Hra].
  { intros l0 Hl0. apply Hold0. by eapply snaps_reach_valid. }
  destruct (cloneEach_tree f IH (obj_vals o) h1 (<[l:=length h]> memo) ts)
    as ([vs' [h2 memo2]] & Hc & H2).
  { by rewrite Hsa. }
  { by rewrite Hra. }
  { intros l0 Hl0. rewrite Hra in Hl0. rewrite lookup_insert_ne.
    - apply Hmemo. by right.
    - intros ->. done. }
  fold h1. rewrite Hc. simpl.
  destruct H2 as (Hlen2 & Hold2 & Hs2 & Hnd2 & Hb2 & Hm2); cbn [fst snd] in *.
  assert (length h1 = S (length h)) as Hlen1.
  { unfold h1. rewrite length_app. simpl. lia. }
  assert (length vs' = length (obj_vals o)) as Hvs'.
  { apply mapM_Some, Forall2_length in Hs2, Hts. congruence. }
  set (h3 := <[length h:=obj_with o vs']> h2).
  destruct (snaps_reach_agree f h2 h3 vs') as [Hsa3 Hra3].
  { intros l0 Hl0. unfold h3. rewrite list_lookup_insert_ne; [done|].
    apply Hb2 in Hl0. lia. }
  eexists. split; [done|].
  unfold cloned_from; cbn [fst snd]. fold h3.
  assert (h3 !! length h = Some (obj_with o vs')) as Hl3.
  { unfold h3. apply list_lookup_insert_eq. lia. }
  split_and!.
  - unfold h3. rewrite length_insert. lia.
  - intros l0 Hl0. unfold h3. rewrite list_lookup_insert_ne by lia.
    rewrite Hold2 by lia. by apply Hold0.
  - simpl. rewrite Hl3. simpl. rewrite obj_with_vals by done.
    rewrite Hsa3, Hs2. simpl. by rewrite tree_with_obj_with.
  - simpl. rewrite Hl3, obj_with_vals by done. rewrite Hra3.
    apply NoDup_cons. split; [|done]. intros Hin%Hb2. lia.
  - simpl. rewrite Hl3, obj_with_vals by done. rewrite Hra3.
    unfold h3. rewrite length_insert.
    intros l0 [->|Hin%Hb2]%elem_of_cons; lia.
  - intros l0 Hl0. simpl in Hl0. rewrite Hl in Hl0.
    apply not_elem_of_cons in Hl0 as [Hne Hl0].
    rewrite Hm2 by (by rewrite Hra). by rewrite lookup_insert_ne.
Qed.

Lemma cloneDeep_tree (h : list obj) v t :
  snapshot h v = Some t → NoDup (reachable h v) →
  ∃ v' h',
    cloneDeep v h = Some (v', h') ∧
    (length h ≤ length h')%nat ∧
    (∀ l, (l < length h)%nat → h' !! l = h !! l) ∧
    snapshot h' v' = Some t ∧
    NoDup (reachable h' v') ∧
    (∀ l, l ∈ reachable h' v' → (length h ≤ l < length h')%nat).
Proof.
  unfold snapshot, reachable, cloneDeep. intros Hs Hnd.
  destruct (baseClone_tree _ v h ∅ t Hs Hnd) as ([v' [h' memo']] & -> & Hc).
  { intros l _. apply lookup_empty. }
  destruct Hc as (Hlen & Hold & Hs' & Hnd' & Hb & _); cbn [fst snd] in *.
  destruct (snap_fuel _ h' v' t (S (length h')) Hs') as [Hs2 Hr2]; [lia|].
  exists v', h'. rewrite Hr2. by split_and!.
Qed.

Lemma array_reverse_tree f (h : list obj) v rows :
  snap f h v = Some (TArr rows) → NoDup (reach f h v) →
  ∃ h',
    array_reverse v h = Some h' ∧ length h' = length h ∧
    snap f h' v = Some (TArr (reverse rows)) ∧
    (∀ l, l ∉ reach f h v → h' !! l = h !! l) ∧
    (∀ l, l ∈ reach f h' v → l ∈ reach f h v).
Proof.
  destruct f as [|f], v as [| |g]; try done. simpl.
  destruct (h !! g) as [o|] eqn:Hg; simpl; [|done].
  destruct (mapM (snap f h) (obj_vals o)) as [ts|] eqn:Hts; simpl; [|done].
  destruct o as [es|ps]; simpl in *; [|done].
  intros [= ->] [Hg_out Hnd]%NoDup_cons.
  eexists. split; [done|].
  set (h' := <[g:=OArr (reverse es)]> h).
  assert (h' !! g = Some (OArr (reverse es))) as Hg'.
  { apply list_lookup_insert_eq. by eapply lookup_lt_Some. }
  assert (Forall (λ v, snap f h' v = snap f h v ∧ reach f h' v = reach f h v) es)
    as Hall.
  { apply Forall_forall. intros v Hv. apply snap_reach_agree. intros l Hl.
    unfold h'. apply list_lookup_insert_ne. intros ->. apply Hg_out.
    apply list_elem_of_bind. eauto. }
  rewrite Hg'. simpl. split_and!.
  - apply length_insert.
  - rewrite (mapM_ext_Forall (snap f h') (snap f h)).
    + apply mapM_Some, Forall2_reverse in Hts. apply mapM_Some in Hts.
      by rewrite Hts.
    + apply Forall_reverse. eapply Forall_impl; [done|]. by intros ? [].
  - intros l [Hne Hl]%not_elem_of_cons. unfold h'.
    by apply list_lookup_insert_ne.
  - intros l [->|Hl]%elem_of_cons; [by left|right].
    apply list_elem_of_bind in Hl as (v & Hl & Hv).
    rewrite elem_of_reverse in Hv.
    apply list_elem_of_bind. exists v. split; [|done].
    rewrite Forall_forall in Hall. by destruct (Hall v Hv) as [_ <-].
Qed.

Lemma reverse_each_tree f : ∀ vs (h : list obj) ts,
  mapM (snap f h) vs = Some ts → NoDup (vs ≫= reach f h) →
  Forall is_array ts →
  ∃ h',
    reverse_each vs h = Some h' ∧ length h' = length h ∧
    mapM (snap f h') vs = Some (reverse_grid <$> ts) ∧
    (∀ l, l ∉ vs ≫= reach f h → h' !! l = h !! l) ∧
    (∀ l, l ∈ vs ≫= reach f h' → l ∈ vs ≫= reach f h).
Proof.
  induction vs as [|v vs IH]; intros h ts Hts Hnd Harr.
  { apply mapM_Some, Forall2_nil_inv_l in Hts as ->.
    exists h. by split_and!. }
  apply mapM_Some, Forall2_cons_inv_l in Hts as (t & ts' & Ht & Hts' & ->).
  apply mapM_Some in Hts'.
  apply Forall_cons in Harr as [[rows ->] Harr].
  rewrite bind_cons in Hnd. apply NoDup_app in Hnd as (Hnd1 & Hdisj & Hnd2).
  destruct (array_reverse_tree f h v rows Ht Hnd1)
    as (h1 & Hr1 & Hlen1 & Hs1 & Hfr1 & Hin1).
  destruct (snaps_reach_agree f h h1 vs) as [Hsa Hra].
  { intros l Hl. apply Hfr1. intros Hl'. by eapply Hdisj. }
  destruct (IH h1 ts') as (h2 & Hr2 & Hlen2 & Hs2 & Hfr2 & Hin2);
    [by rewrite Hsa|by rewrite Hra|done|].
  destruct (snap_reach_agree f h1 h2 v) as [Hsv Hrv].
  { intros l Hl. apply Hfr2. rewrite Hra. intros Hl'.
    eapply Hdisj; [|done]. by apply Hin1. }
  exists h2. split_and!.
  - simpl. by rewrite Hr1.
  - congruence.
  - apply mapM_Some. rewrite fmap_cons. constructor; [|by apply mapM_Some].
    by rewrite Hsv.
  - intros l Hl. rewrite bind_cons, elem_of_app in Hl.
    rewrite Hfr2, Hfr1; [done|tauto|]. rewrite Hra. tauto.
  - intros l. rewrite !bind_cons, !elem_of_app, Hrv.
    intros [Hl|Hl]; [left; by apply Hin1|right]. rewrite <-Hra. by apply Hin2.
Qed.

Lemma tree_prop_reverse_rows props k :
  tree_prop (reverse_rows (TObj props)) k =
  reverse_grid <$> tree_prop (TObj props) k.
Proof.
  unfold tree_prop, reverse_rows.
  induction props as [|[k' g] props IH]; [done|]. csimpl.
  case_decide; [done|].
  revert IH.
  destruct (list_find _ (prod_map id reverse_grid <$> props)) as [[? [? ?]]|],
    (list_find _ props) as [[? [? ?]]|]; csimpl; congruence.
Qed.

Lemma grid_row_reverse_rows base k i :
  table_set base → (i < 8)%nat →
  grid_row (reverse_rows base) k i = grid_row base k (7 - i).
Proof.
  destruct base as [| | |props]; try done. intros Hset Hi.
  unfold grid_row. rewrite tree_prop_reverse_rows.
  destruct (tree_prop (TObj props) k) as [g|] eqn:Hg; [|done]. csimpl.
  assert (∃ rows, g = TArr rows ∧ length rows = 8%nat) as (rows & -> & Hlen).
  { unfold tree_prop in Hg.
    destruct (list_find _ props) as [[n p]|] eqn:Hfind; simplify_eq/=.
    apply list_find_Some in Hfind as (Hp & _).
    simpl in Hset. rewrite Forall_forall in Hset. apply Hset.
    apply list_elem_of_lookup. eauto. }
  simpl. rewrite reverse_lookup by lia. f_equal. lia.
Qed.

Lemma reverse_rows_zip (ks : list string) ts :
  prod_map id reverse_grid <$> zip ks ts = zip ks (reverse_grid <$> ts).
Proof.
  revert ts. induction ks as [|k ks IH]; intros [|t ts]; simpl; try done.
  by rewrite <-IH.
Qed.

(** Later changes of the store that leave its old objects alone do not
    change what a value denotes. *)
Lemma snapshot_stable (h h' : list obj) v t :
  snapshot h v = Some t →
  (length h ≤ length h')%nat →
  (∀ l, (l < length h)%nat → h' !! l = h !! l) →
  snapshot h' v = Some t ∧ reachable h' v = reachable h v.
Proof.
  unfold snapshot, reachable. intros Hs Hlen Hold.
  destruct (snap_reach_agree (S (length h)) h h' v) as [Hsa Hra].
  { intros l Hl. apply Hold. by eapply snap_reach_valid. }
  rewrite <-Hsa in Hs.
  destruct (snap_fuel _ h' v t (S (length h')) Hs) as [Hs' Hr']; [lia|].
  by rewrite Hs', Hr', Hra.
Qed.

(** ** The table builder *)

Section Tables.
Context `{Imports}.

Lemma reverseSquareTablesForBlack_tree (h : list obj) base :
  snapshot h PIECE_SQUARE_TABLES = Some base →
  NoDup (reachable h PIECE_SQUARE_TABLES) →
  table_set base →
  ∃ cloned h',
    reverseSquareTablesForBlack h = Some (cloned, h') ∧
    snapshot h' cloned = Some (reverse_rows base) ∧
    (∀ l, l ∈ reachable h' cloned → (length h ≤ l)%nat) ∧
    (length h ≤ length h')%nat ∧
    (∀ l, (l < length h)%nat → h' !! l = h !! l).
Proof.
  intros Hbase Hnd Hset.
  destruct (cloneDeep_tree h _ base Hbase Hnd)
    as (cloned & h1 & Hclone & Hlen1 & Hold1 & Hs1 & Hnd1 & Hfresh1).
  destruct base as [| | |props]; try done.
  unfold snapshot, reachable in Hs1, Hnd1, Hfresh1.
  destruct cloned as [| |lc]; try done. simpl in Hs1, Hnd1, Hfresh1.
  destruct (h1 !! lc) as [o|] eqn:Hlc; simpl in *; [|done].
  destruct (mapM (snap (length h1) h1) (obj_vals o)) as [ts|] eqn:Hts;
    simpl in Hs1; [|done].
  destruct o as [es|ps]; simpl in *; [done|].
  injection Hs1 as <-.
  apply NoDup_cons in Hnd1 as [Hlc_out Hnd1].
  assert (length ts = length ps) as Hlen_ts.
  { apply mapM_Some, Forall2_length in Hts. rewrite length_fmap in Hts. done. }
  assert (Forall is_array ts) as Harr.
  { assert ((zip ps.*1 ts).*2 = ts) as <-.
    { apply snd_zip. rewrite length_fmap. lia. }
    apply Forall_fmap. eapply Forall_impl; [exact Hset|].
    intros p (rows & Hp & _). by exists rows. }
  destruct (reverse_each_tree (length h1) (ps.*2) h1 ts Hts Hnd1 Harr)
    as (h2 & Hrev & Hlen2 & Hs2 & Hfr2 & Hin2).
  assert (h2 !! lc = Some (OObj ps)) as Hlc2.
  { by rewrite Hfr2. }
  exists (VRef lc), h2. split_and!.
  - unfold reverseSquareTablesForBlack. rewrite Hclone. simpl.
    rewrite Hlc. simpl. by rewrite Hrev.
  - unfold snapshot. rewrite Hlen2. simpl. rewrite Hlc2. simpl.
    rewrite Hs2. simpl. by rewrite reverse_rows_zip.
  - unfold reachable. rewrite Hlen2. simpl. rewrite Hlc2. simpl.
    intros l [->|Hl]%elem_of_cons.
    + apply Hfresh1. by left.
    + apply Hfresh1. right. by apply Hin2.
  - lia.
  - intros l Hl. rewrite Hfr2; [by apply Hold1|].
    intros Hin. assert (length h ≤ l)%nat; [|lia].
    apply Hfresh1. by right.
Qed.

(** C7.  Called in a store where [PIECE_SQUARE_TABLES] denotes a table
    set [base] (an object of eight-row grids) that uses no array twice,
    the table builder returns a value that denotes [base] with the rows of
    every grid in reverse order: it has the keys of [base] and, under
    every key, row [i] is row [7 - i] of [base], each row as it was.  The
    value is made of objects that did not exist before the call (a deep
    copy), no object that existed has changed, and [PIECE_SQUARE_TABLES]
    still denotes [base]. *)
Theorem reverseSquareTablesForBlack_copy (h : list obj) base :
  snapshot h PIECE_SQUARE_TABLES = Some base →
  NoDup (reachable h PIECE_SQUARE_TABLES) →
  table_set base →
  ∃ cloned h' copy,
    reverseSquareTablesForBlack h = Some (cloned, h') ∧
    snapshot h' cloned = Some copy ∧
    copy = reverse_rows base ∧
    (∀ k, is_Some (tree_prop copy k) ↔ is_Some (tree_prop base k)) ∧
    (∀ k i, (i < 8)%nat → grid_row copy k i = grid_row base k (7 - i)) ∧
    (∀ l, l ∈ reachable h' cloned → (length h ≤ l)%nat) ∧
    (∀ l, (l < length h)%nat → h' !! l = h !! l) ∧
    snapshot h' PIECE_SQUARE_TABLES = Some base.
Proof.
  intros Hbase Hnd Hset.
  destruct (reverseSquareTablesForBlack_tree h base Hbase Hnd Hset)
    as (cloned & h' & Hrun & Hcopy & Hfresh & Hlen & Hold).
  exists cloned, h', (reverse_rows base). split_and!; try done.
  - intros k. destruct base as [| | |props]; try done.
    rewrite tree_prop_reverse_rows. by rewrite fmap_is_Some.
  - intros k i Hi. by apply grid_row_reverse_rows.
  - by apply (snapshot_stable h h').
Qed.

End Tables.

(** ** The incremental evaluator *)

Section Evaluator.
Context {E : Type} `{ChessInstance E} `{Imports}.
Variables (h : heap) (this : ChessAiManager E).

(** Each branch adds to the score it is given an amount that does not
    depend on that score. *)
Lemma captureStep_adjusts mv s :
  captureStep h this mv s = (λ d, s + d) <$> captureAdjustment h this mv.
Proof.
  unfold captureStep, captureAdjustment.
  destruct (Move.captured mv) as [c|]; simpl.
  - case_bool_decide; simpl.
    + by destruct (getAiValueFromSquareTable _ _ _ _).
    + destruct (getOpponentValueFromSquareTable _ _ _ _); simpl; f_equal; lia.
  - f_equal; lia.
Qed.

Lemma promotionStep_adjusts mv s :
  promotionStep h this mv s = (λ d, s + d) <$> promotionAdjustment h this mv.
Proof.
  unfold promotionStep, promotionAdjustment. case_bool_decide; simpl.
  - destruct (getAiValueFromSquareTable _ _ (Move.piece mv) _); simpl; [|done].
    destruct (getAiValueFromSquareTable _ _ Queen _); simpl; f_equal; lia.
  - destruct (getOpponentValueFromSquareTable _ _ _ (getMatrixPosition (Move.from mv)));
      simpl; [|done].
    destruct (getOpponentValueFromSquareTable _ _ _ _); simpl; f_equal; lia.
Qed.

Lemma regularStep_adjusts mv s :
  regularStep h this mv s = (λ d, s + d) <$> regularAdjustment h this mv.
Proof.
  unfold regularStep, regularAdjustment.
  destruct (getAiValueFromSquareTable _ _ _ (getMatrixPosition (Move.from mv)));
    simpl; [|by case_bool_decide].
  destruct (getAiValueFromSquareTable _ _ _ _); simpl; [|by case_bool_decide].
  case_bool_decide; simpl; f_equal; lia.
Qed.

(** C3, as amended.  The score returned is the previous score plus the
    capture adjustment (zero when nothing was captured) plus exactly one
    of the promotion adjustment, for a move whose flags are p, and the
    regular-move adjustment, for any other move.  A capturing move
    therefore receives the capture adjustment and one of the other two. *)
Theorem evaluateBoard_capture_then_one mv s :
  evaluateBoard h this mv s =
  dc ← captureAdjustment h this mv;
  dm ← (if String.eqb (Move.flags mv) "p" then promotionAdjustment h this mv
        else regularAdjustment h this mv);
  Some (s + dc + dm).
Proof.
  unfold evaluateBoard. rewrite captureStep_adjusts.
  destruct (captureAdjustment h this mv) as [dc|]; simpl; [|done].
  destruct (String.eqb _ _).
  - rewrite promotionStep_adjusts. by destruct (promotionAdjustment h this mv).
  - rewrite regularStep_adjusts. by destruct (regularAdjustment h this mv).
Qed.

(** A regular move of the other side is scored with the engine's own
    table, at both squares. *)
Lemma evaluateBoard_regular_opponent mv s :
  Move.captured mv = None →
  Move.flags mv ≠ "p"%string →
  Some (Move.color mv) ≠ color this →
  evaluateBoard h this mv s =
  vf ← getAiValueFromSquareTable h this (Move.piece mv) (getMatrixPosition (Move.from mv));
  vt ← getAiValueFromSquareTable h this (Move.piece mv) (getMatrixPosition (Move.to mv));
  Some (s + vf - vt).
Proof.
  intros Hc Hf Hm. unfold evaluateBoard, captureStep, regularStep.
  rewrite Hc. simpl. apply String.eqb_neq in Hf. rewrite Hf.
  by rewrite bool_decide_eq_false_2.
Qed.

(** The evaluator never reads the piece a move promotes to. *)
Lemma evaluateBoard_ignores_promotion mv s x :
  evaluateBoard h this
    (Move.mk (Move.color mv) (Move.from mv) (Move.to mv) (Move.flags mv)
       (Move.piece mv) (Move.san mv) (Move.captured mv) x) s =
  evaluateBoard h this mv s.
Proof. reflexivity. Qed.

(** The evaluator reads the manager's colour and tables, not its engine. *)
Lemma evaluateBoard_engine e mv s :
  evaluateBoard h (set_chessEngine e this) mv s = evaluateBoard h this mv s.
Proof. reflexivity. Qed.

End Evaluator.

(** ** The order on [num] *)

Ltac zcmp :=
  repeat match goal with
    | H : context [(?x <? ?y)%Z] |- _ => destruct (Z.ltb_spec x y); simpl in *
    | |- context [(?x <? ?y)%Z] => destruct (Z.ltb_spec x y); simpl in *
    end.

Ltac num_cases :=
  intros; unfold num_le, num_lt, num_leb, num_max, num_min in *;
  repeat match goal with
    | x : num |- _ => destruct x; simpl in *; try done
    end;
  zcmp; simplify_eq; try done; try lia; try (f_equal; lia).

Lemma num_le_refl a : num_le a a.
Proof. num_cases. Qed.

Lemma num_le_trans a b c : num_le a b → num_le b c → num_le a c.
Proof. num_cases. Qed.

Lemma num_le_antisym a b : num_le a b → num_le b a → a = b.
Proof. num_cases. Qed.

Lemma num_lt_le a b : num_lt a b → num_le a b.
Proof. num_cases. Qed.

Lemma num_not_lt a b : num_ltb a b = false ↔ num_le b a.
Proof. done. Qed.

(** [num] is a total order; [num_order] decides what follows from
    comparisons between numbers without looking inside them. *)
Module NumOrder <: TotalOrder.
Definition t := num.
Definition eq := @Logic.eq num.
Definition lt := num_lt.
Definition le := num_le.
Lemma eq_equiv : Equivalence eq.
Proof. unfold eq. split; congruence. Qed.
#[global] Instance lt_strorder : StrictOrder lt.
Proof. split; [intros x Hx|intros x y z Hxy Hyz]; unfold lt in *; num_cases. Qed.
#[global] Instance lt_compat : Proper (eq ==> eq ==> iff) lt.
Proof. unfold eq. by intros x y -> z w ->. Qed.
Lemma le_lteq x y : le x y ↔ lt x y ∨ eq x y.
Proof.
  unfold le, lt, eq. split; [|intros [?| ->]]; num_cases; try (by left).
  all: right; f_equal; lia.
Qed.
Lemma lt_total x y : lt x y ∨ eq x y ∨ lt y x.
Proof.
  unfold lt, eq. num_cases; auto.
  destruct (Z.lt_total z z0) as [?|[->|?]]; auto; lia.
Qed.
End NumOrder.

Module NumTac := MakeOrderTac NumOrder NumOrder.

Ltac num_split :=
  repeat match goal with
    | |- context [num_ltb ?a ?b] => destruct (num_ltb a b) eqn:?; simpl in *
    | H : context [if num_ltb ?a ?b then _ else _] |- _ =>
        destruct (num_ltb a b) eqn:?; simpl in *
    end.

Ltac num_atoms :=
  repeat match goal with
    | H : num_ltb ?a ?b = true |- _ => change (NumOrder.lt a b) in H
    | H : num_ltb ?a ?b = false |- _ => change (NumOrder.le b a) in H
    | H : num_lt ?a ?b |- _ => change (NumOrder.lt a b) in H
    | H : num_le ?a ?b |- _ => change (NumOrder.le a b) in H
    | |- num_ltb ?a ?b = true => change (NumOrder.lt a b)
    | |- num_ltb ?a ?b = false => change (NumOrder.le b a)
    | |- num_lt ?a ?b => change (NumOrder.lt a b)
    | |- num_le ?a ?b => change (NumOrder.le a b)
    | H : @Logic.eq num ?a ?b |- _ => change (NumOrder.eq a b) in H
    | |- @Logic.eq num ?a ?b => change (NumOrder.eq a b)
    end.

Ltac num_order := num_atoms; NumTac.order.

(** Decide the premise of every implication between comparisons. *)
Ltac num_imp :=
  repeat match goal with
    | H : num_le ?x ?y → _ |- _ =>
        destruct (num_ltb y x) eqn:?;
        [clear H
        |let P := fresh in assert (num_le x y) as P by done; specialize (H P)]
    | H : num_lt ?x ?y → _ |- _ =>
        destruct (num_ltb x y) eqn:?;
        [let P := fresh in assert (num_lt x y) as P by done; specialize (H P)
        |clear H]
    end.

Ltac num_finish :=
  repeat match goal with
    | H : _ ∧ _ |- _ => destruct H
    end;
  repeat split; intros;
  first [done | congruence | num_order | exfalso; num_order].

(** ** The search *)

Section Search.
Context {E : Type} `{ChessInstance E} `{Imports}.
Variable h : heap.

Lemma no_worse_refl b a : no_worse b a a.
Proof. destruct b; apply num_le_refl. Qed.

Lemma no_worse_trans b x y z : no_worse b x y → no_worse b y z → no_worse b x z.
Proof. destruct b; simpl; eauto using num_le_trans. Qed.

Lemma no_worse_antisym b x y : no_worse b x y → no_worse b y x → x = y.
Proof. destruct b; simpl; eauto using num_le_antisym, eq_sym. Qed.

Lemma better_irrefl b x : better b x x = false.
Proof. destruct b; simpl; num_cases. Qed.

(** One child: the best move is replaced exactly when the child's value
    is strictly better than the best value so far. *)
Lemma visit_best b cm v st :
  bestMove (visit b cm v st).1 =
    (if better b v (bestVal b st) then cm else bestMove st) ∧
  bestVal b (visit b cm v st).1 =
    (if better b v (bestVal b st) then v else bestVal b st).
Proof.
  unfold visit, better, bestVal.
  destruct b; simpl;
    [destruct (num_ltb (maxVal st) v)|destruct (num_ltb v (minVal st))]; done.
Qed.

Lemma visit_monotone b cm v st :
  no_worse b (bestVal b (visit b cm v st).1) (bestVal b st) ∧
  (bestVal b (visit b cm v st).1 = bestVal b st →
   bestMove (visit b cm v st).1 = bestMove st).
Proof.
  destruct (visit_best b cm v st) as [-> ->].
  destruct (better b v (bestVal b st)) eqn:Hb.
  - split.
    + destruct b; simpl in *; by apply num_lt_le.
    + intros Heq. rewrite Heq, better_irrefl in Hb. done.
  - split; [apply no_worse_refl|done].
Qed.

Lemma better_trans b x y z :
  better b x y = true → better b y z = true → better b x z = true.
Proof. destruct b; simpl; intros; num_order. Qed.

Lemma better_after b x v s :
  better b x s = true → better b v s = false → better b x v = true.
Proof. destruct b; simpl; intros; num_order. Qed.

(** The loop breaks exactly when the window is closed after the child. *)
Lemma visit_stop b cm v st :
  (visit b cm v st).2 =
    num_leb (beta (visit b cm v st).1) (alpha (visit b cm v st).1).
Proof. by destruct b. Qed.

(** A child tried before the others: the earliest of the best among all
    is the earliest of the best among the others, started from what the
    node holds after that child. *)
Lemma earliest_best_cons b start cm v rest final :
  earliest_best b (if better b v start.2 then (cm, v) else start) rest final →
  earliest_best b start ((cm, v) :: rest) final.
Proof.
  destruct (better b v start.2) eqn:Hv; intros [[Hnone ->]|(j & Hj & Hb & Hlt & Hgt)].
  - right. exists 0%nat. split_and!; [done|done|intros; lia|].
    intros [|i] c Hi Hc; [lia|]. apply Hnone. by eapply list_elem_of_lookup_2.
  - right. exists (S j). simpl in Hb. split_and!; [done|by eapply better_trans| |].
    + intros [|i] c Hi Hc; simpl in Hc; [by simplify_eq|]. eapply Hlt; [|done]. lia.
    + intros [|i] c Hi Hc; [lia|]. eapply Hgt; [|done]. lia.
  - left. split; [|done]. intros c [->|Hc]%elem_of_cons; [done|by apply Hnone].
  - right. exists (S j). split_and!; [done|done| |].
    + intros [|i] c Hi Hc; simpl in Hc.
      * simplify_eq. simpl. by eapply better_after.
      * eapply Hlt; [|done]. lia.
    + intros [|i] c Hi Hc; [lia|]. eapply Hgt; [|done]. lia.
Qed.

(** One turn of the loop, once its calls have returned. *)
Lemma minimax_loop_cons child sum b n todo st this cm e1 mv newSum m' v this2 :
  move (inl n) (chessEngine this) = (cm, e1) →
  deref cm = Some mv →
  evaluateBoard h (set_chessEngine e1 this) mv sum = Some newSum →
  child newSum (alpha st) (beta st) (set_chessEngine e1 this) =
    Some ((m', v), this2) →
  minimax_loop child h sum b (n :: todo) st this =
    if (visit b cm v st).2
    then Some ((visit b cm v st).1,
               set_chessEngine (undo (chessEngine this2)) this2)
    else minimax_loop child h sum b todo (visit b cm v st).1
           (set_chessEngine (undo (chessEngine this2)) this2).
Proof.
  intros Hm Hd He Hc. cbn [minimax_loop]. rewrite Hm. cbn zeta.
  rewrite Hd. cbn [mbind option_bind]. rewrite He. cbn [mbind option_bind].
  rewrite Hc. cbn [mbind option_bind]. by destruct (visit b cm v st) as [? []].
Qed.

Lemma nth_child_first child sum b n rest st this cm e1 mv newSum m' v this2 :
  move (inl n) (chessEngine this) = (cm, e1) →
  deref cm = Some mv →
  evaluateBoard h (set_chessEngine e1 this) mv sum = Some newSum →
  child newSum (alpha st) (beta st) (set_chessEngine e1 this) =
    Some ((m', v), this2) →
  nth_child child h sum b (n :: rest) st this 0 = Some (cm, v).
Proof.
  intros Hm Hd He Hc. unfold nth_child. cbn [take minimax_loop].
  cbn [mbind option_bind]. change ((n :: rest) !! 0%nat) with (Some n).
  cbn [mbind option_bind]. rewrite Hm. cbn zeta.
  rewrite Hd. cbn [mbind option_bind]. rewrite He. cbn [mbind option_bind].
  rewrite Hc. done.
Qed.

Lemma nth_child_later child sum b n rest st this cm e1 mv newSum m' v this2 i :
  move (inl n) (chessEngine this) = (cm, e1) →
  deref cm = Some mv →
  evaluateBoard h (set_chessEngine e1 this) mv sum = Some newSum →
  child newSum (alpha st) (beta st) (set_chessEngine e1 this) =
    Some ((m', v), this2) →
  (visit b cm v st).2 = false →
  nth_child child h sum b (n :: rest) st this (S i) =
  nth_child child h sum b rest (visit b cm v st).1
    (set_chessEngine (undo (chessEngine this2)) this2) i.
Proof.
  intros Hm Hd He Hc Hgo. unfold nth_child.
  change (take (S i) (n :: rest)) with (n :: take i rest).
  change ((n :: rest) !! S i) with (rest !! i).
  by rewrite (minimax_loop_cons _ _ _ _ _ _ _ _ _ _ _ _ _ _ Hm Hd He Hc), Hgo.
Qed.

(** C8.  At every node the loop tries the children in the order in which
    the rules engine enumerates them, one after the other until the
    window closes or the moves are exhausted, and the move and value it
    holds at the end are those of the earliest of the best children it
    tried: a child replaces the best so far only when its value is
    strictly better (greater at a maximizing node, lesser at a minimizing
    node), so that of children with equal values the one enumerated
    earlier is kept. *)
Theorem later_child_replaces_only_if_better child sum b todo st this st' this' :
  minimax_loop child h sum b todo st this = Some (st', this') →
  ∃ seen : list (maybeMove * num),
    (∀ i c, seen !! i = Some c →
            nth_child child h sum b todo st this i = Some c) ∧
    minimax_loop child h sum b (take (length seen) todo) st this =
      Some (st', this') ∧
    (length seen ≤ length todo)%nat ∧
    (todo ≠ [] → seen ≠ []) ∧
    ((length seen < length todo)%nat → num_le (beta st') (alpha st')) ∧
    earliest_best b (bestMove st, bestVal b st) seen
      (bestMove st', bestVal b st').
Proof.
  revert st this. induction todo as [|n rest IH]; intros st this Hrun.
  { simpl in Hrun. simplify_eq. exists [].
    split_and!; [done|done|done|done|simpl; lia|].
    left. split; [by intros c ?%elem_of_nil|done]. }
  destruct (move (inl n) (chessEngine this)) as [cm e1] eqn:Hm.
  destruct (deref cm) as [mv|] eqn:Hd;
    [|by cbn [minimax_loop] in Hrun; rewrite Hm in Hrun; cbn zeta in Hrun;
        rewrite Hd in Hrun].
  destruct (evaluateBoard h (set_chessEngine e1 this) mv sum)
    as [newSum|] eqn:He;
    [|by cbn [minimax_loop] in Hrun; rewrite Hm in Hrun; cbn zeta in Hrun;
        rewrite Hd in Hrun; cbn [mbind option_bind] in Hrun;
        rewrite He in Hrun].
  destruct (child newSum (alpha st) (beta st) (set_chessEngine e1 this))
    as [[[m' v] this2]|] eqn:Hc;
    [|by cbn [minimax_loop] in Hrun; rewrite Hm in Hrun; cbn zeta in Hrun;
        rewrite Hd in Hrun; cbn [mbind option_bind] in Hrun;
        rewrite He in Hrun; cbn [mbind option_bind] in Hrun;
        rewrite Hc in Hrun].
  pose proof (minimax_loop_cons child sum b n) as Hstep.
  specialize (λ todo', Hstep todo' _ _ _ _ _ _ _ _ _ Hm Hd He Hc).
  pose proof (nth_child_first child sum b n rest _ _ _ _ _ _ _ _ _ Hm Hd He Hc)
    as Hfirst.
  pose proof (nth_child_later child sum b n rest st this cm e1 mv newSum m' v
                this2) as Hnext.
  specialize (λ i, Hnext i Hm Hd He Hc).
  rewrite Hstep in Hrun.
  pose proof (visit_best b cm v st) as [Hmove Hval].
  pose proof (visit_stop b cm v st) as Hstop.
  assert (earliest_best b
            (if better b v (bestVal b st) then (cm, v)
             else (bestMove st, bestVal b st)) []
            (bestMove (visit b cm v st).1, bestVal b (visit b cm v st).1))
    as Hone.
  { left. split; [by intros c ?%elem_of_nil|].
    rewrite Hmove, Hval. by destruct (better b v (bestVal b st)). }
  destruct (visit b cm v st).2 eqn:Hgo.
  { simplify_eq. exists [(cm, v)]. split_and!.
    - intros [|i] c Hc'; simpl in Hc'; [|done]. by simplify_eq.
    - cbn [length take]. by rewrite Hstep.
    - simpl. lia.
    - done.
    - intros _. symmetry in Hstop. unfold num_leb in Hstop.
      by apply negb_true_iff in Hstop.
    - by apply earliest_best_cons. }
  apply IH in Hrun as (seen & Hseen & Htake & Hlen & Hne & Hcut & Hbest).
  exists ((cm, v) :: seen). split_and!.
  - intros [|i] c Hc'; simpl in Hc'; [by simplify_eq|].
    rewrite Hnext by done. by apply Hseen.
  - cbn [length take]. by rewrite Hstep.
  - simpl. lia.
  - done.
  - simpl. intros Hlt. apply Hcut. lia.
  - apply earliest_best_cons. cbn [fst snd].
    rewrite Hmove, Hval in Hbest.
    by destruct (better b v (bestVal b st)).
Qed.

(** *** The position is restored *)

(** The engine's contract, as far as the search needs it: [undo] takes
    back the move that was just made. *)
Hypothesis undo_move :
  ∀ (e : E) (n : string), n ∈ moves e → undo (move (inl n) e).2 = e.

Lemma undo_restores (this : ChessAiManager E) n :
  n ∈ moves (chessEngine this) →
  set_chessEngine (undo (move (inl n) (chessEngine this)).2)
    (set_chessEngine (move (inl n) (chessEngine this)).2 this) = this.
Proof.
  intros Hn. unfold set_chessEngine; simpl. rewrite undo_move by done.
  by destruct this.
Qed.

Lemma minimax_loop_restores child sum b todo st this st' this' :
  (∀ s a b' t r t', child s a b' t = Some (r, t') → t' = t) →
  Forall (λ n, n ∈ moves (chessEngine this)) todo →
  minimax_loop child h sum b todo st this = Some (st', this') →
  this' = this.
Proof.
  intros Hchild. revert st.
  induction todo as [|n rest IH]; intros st Hlegal Hrun; simpl in Hrun.
  { by simplify_eq. }
  apply Forall_cons in Hlegal as [Hn Hrest].
  pose proof (undo_restores this n Hn) as Hback.
  destruct (move (inl n) (chessEngine this)) as [cm e1]; simpl in *.
  destruct (deref cm) as [mv|]; simpl in Hrun; [|done].
  destruct (evaluateBoard _ _ _ _) as [newSum|]; simpl in Hrun; [|done].
  destruct (child _ _ _ _) as [[[? v] this2]|] eqn:Hc; simpl in Hrun; [|done].
  apply Hchild in Hc as ->. simpl in Hrun. rewrite Hback in Hrun.
  destruct (visit b cm v st) as [st1 stop]. destruct stop.
  - by simplify_eq.
  - by eapply IH.
Qed.

(** C6.  A search that returns leaves the manager, and with it the
    position held by the rules engine, as it found it: every move made
    during the traversal has been taken back, also when the loop is left
    through the pruning break. *)
Theorem search_restores_position depth sum b a b' this r this' :
  minimax h depth sum b a b' this = Some (r, this') →
  chessEngine this' = chessEngine this ∧ this' = this.
Proof.
  intros Hrun. enough (this' = this) as -> by done.
  revert sum b a b' this r this' Hrun.
  induction depth as [|d IH]; intros sum b a b' this r this' Hrun; simpl in Hrun.
  { by simplify_eq. }
  destruct (moves (chessEngine this)) as [|n rest] eqn:Hmoves.
  { by simplify_eq. }
  destruct (minimax_loop _ _ _ _ _ _ _) as [[st this1]|] eqn:Hloop;
    simpl in Hrun; [|done].
  apply minimax_loop_restores in Hloop.
  - destruct b; by simplify_eq.
  - intros s x y t r0 t'. apply IH.
  - rewrite Hmoves. by apply Forall_forall.
Qed.

(** *** Pruning does not change the result *)

Lemma plain_loop_restores child sum b todo best this r this' :
  (∀ s t r t', child s t = Some (r, t') → t' = t) →
  Forall (λ n, n ∈ moves (chessEngine this)) todo →
  plain_loop child h sum b todo best this = Some (r, this') →
  this' = this.
Proof.
  intros Hchild. revert best.
  induction todo as [|n rest IH]; intros best Hlegal Hrun; simpl in Hrun.
  { by simplify_eq. }
  apply Forall_cons in Hlegal as [Hn Hrest].
  pose proof (undo_restores this n Hn) as Hback.
  destruct (move (inl n) (chessEngine this)) as [cm e1]; simpl in *.
  destruct (deref cm) as [mv|]; simpl in Hrun; [|done].
  destruct (evaluateBoard _ _ _ _) as [newSum|]; simpl in Hrun; [|done].
  destruct (child _ _) as [[[? v] this2]|] eqn:Hc; simpl in Hrun; [|done].
  apply Hchild in Hc as ->. simpl in Hrun. rewrite Hback in Hrun.
  by eapply IH.
Qed.

Lemma plain_restores depth sum b this r this' :
  plain_minimax h depth sum b this = Some (r, this') → this' = this.
Proof.
  revert sum b this r this'.
  induction depth as [|d IH]; intros sum b this r this' Hrun; simpl in Hrun.
  { by simplify_eq. }
  destruct (moves (chessEngine this)) as [|n rest] eqn:Hmoves.
  { by simplify_eq. }
  apply plain_loop_restores in Hrun; [done| |].
  - intros s t r0 t'. apply IH.
  - rewrite Hmoves. by apply Forall_forall.
Qed.

(** The plain loop ends with a value no worse than the one it holds. *)
Lemma plain_loop_no_worse child sum b todo best this m x this' :
  plain_loop child h sum b todo best this = Some ((m, x), this') →
  no_worse b x best.2.
Proof.
  revert best this. induction todo as [|n rest IH]; intros best this Hrun;
    simpl in Hrun.
  { simplify_eq. apply no_worse_refl. }
  destruct (move (inl n) (chessEngine this)) as [cm e1]; simpl in *.
  destruct (deref cm) as [mv|]; simpl in Hrun; [|done].
  destruct (evaluateBoard _ _ _ _) as [newSum|]; simpl in Hrun; [|done].
  destruct (child _ _) as [[[? v] this2]|] eqn:Hc; simpl in Hrun; [|done].
  apply IH in Hrun. eapply no_worse_trans; [done|].
  destruct best as [bm bv]. unfold visit_plain; simpl.
  destruct b; simpl; [destruct (num_ltb bv v) eqn:Hlt|destruct (num_ltb v bv) eqn:Hlt];
    simpl; try apply num_le_refl; by apply num_lt_le.
Qed.

Lemma tied_start b a0 b0 :
  num_lt a0 b0 →
  tied b a0 b0
    {| maxVal := NegInf; bestMove := Undefined; minVal := PosInf;
       alpha := a0; beta := b0 |}
    (Undefined, if b then NegInf else PosInf).
Proof. unfold tied. destruct b; simpl; num_cases; intuition. Qed.

Lemma tied_end b a0 b0 st bm bv :
  tied b a0 b0 st (bm, bv) →
  within a0 b0 bv (bestVal b st) bm (bestMove st).
Proof.
  unfold tied, within, bounded, bestVal. destruct st as [mx bmv mn al be].
  destruct b; simpl; intros (Hlt & -> & -> & H1 & H2);
    unfold num_max, num_min in *; num_split; num_imp; num_finish.
Qed.

(** One child, seen by both loops: the pruning loop either stops, with a
    value on the far side of the window that no later child can bring
    back, or stays tied to the plain loop. *)
Lemma visit_step b a0 b0 st bm bv cm xc vc :
  tied b a0 b0 st (bm, bv) →
  bounded (alpha st) (beta st) xc vc →
  if (visit b cm vc st).2
  then ∀ x m, no_worse b x (visit_plain b cm xc (bm, bv)).2 →
         within a0 b0 x (bestVal b (visit b cm vc st).1) m
           (bestMove (visit b cm vc st).1)
  else tied b a0 b0 (visit b cm vc st).1 (visit_plain b cm xc (bm, bv)).
Proof.
  unfold tied, within, bounded, bestVal, visit, visit_plain, no_worse.
  destruct st as [mx bmv mn al be].
  destruct b; simpl; intros (Hlt & -> & -> & H1 & H2) (B1 & B2 & B3);
    unfold num_leb, num_max, num_min in *; num_split; num_imp; num_finish.
Qed.

Lemma pruned_loop_tied d sum b a0 b0 :
  (∀ s b1 a1 b1' this m x this',
     plain_minimax h d s b1 this = Some ((m, x), this') →
     num_lt a1 b1' →
     ∃ m' v, minimax h d s b1 a1 b1' this = Some ((m', v), this) ∧
             bounded a1 b1' x v) →
  ∀ todo st best this m x this',
    Forall (λ n, n ∈ moves (chessEngine this)) todo →
    tied b a0 b0 st best →
    plain_loop (λ newSum, plain_minimax h d newSum (negb b))
      h sum b todo best this = Some ((m, x), this') →
    ∃ st',
      minimax_loop (λ newSum, minimax h d newSum (negb b))
        h sum b todo st this = Some (st', this) ∧
      within a0 b0 x (bestVal b st') m (bestMove st').
Proof.
  intros IHd. induction todo as [|n rest IH];
    intros st [bm bv] this m x this' Hlegal Htied Hplain; simpl in *.
  { simplify_eq. eexists; split; [done|]. by apply tied_end. }
  apply Forall_cons in Hlegal as [Hn Hrest].
  pose proof (undo_restores this n Hn) as Hback.
  destruct (move (inl n) (chessEngine this)) as [cm e1]; simpl in *.
  destruct (deref cm) as [mv|]; simpl in *; [|done].
  destruct (evaluateBoard _ _ _ _) as [newSum|]; simpl in *; [|done].
  destruct (plain_minimax _ _ _ _ _) as [[[cm' xc] this2]|] eqn:Hchild;
    simpl in *; [|done].
  pose proof (plain_restores _ _ _ _ _ _ Hchild) as ->.
  destruct (IHd _ _ (alpha st) (beta st) _ _ _ _ Hchild) as (m' & vc & -> & Hb).
  { apply Htied. }
  simpl in Hplain |- *. rewrite Hback in Hplain |- *.
  pose proof (visit_step b a0 b0 st bm bv cm xc vc Htied Hb) as Hstep.
  destruct (visit b cm vc st) as [st1 stop]; simpl in *.
  destruct stop.
  - eexists; split; [done|]. apply Hstep.
    by apply plain_loop_no_worse in Hplain.
  - destruct (visit_plain b cm xc (bm, bv)) as [bm1 bv1] eqn:Hvp.
    eapply IH; [done| |done]. done.
Qed.

Lemma within_same a b x m : within a b x x m m.
Proof. unfold within, bounded. intuition. Qed.

(** The pruning search against plain minimax, for any window. *)
Lemma pruned_within depth :
  ∀ sum b a0 b0 this m x this',
    plain_minimax h depth sum b this = Some ((m, x), this') →
    num_lt a0 b0 →
    ∃ m' v, minimax h depth sum b a0 b0 this = Some ((m', v), this) ∧
            within a0 b0 x v m m'.
Proof.
  induction depth as [|d IH]; intros sum b a0 b0 this m x this' Hplain Hwin;
    simpl in *.
  { simplify_eq. do 2 eexists; split; [done|]. apply within_same. }
  destruct (moves (chessEngine this)) as [|n rest] eqn:Hmoves.
  { simplify_eq. do 2 eexists; split; [done|]. apply within_same. }
  eapply (pruned_loop_tied d sum b a0 b0) in Hplain as (st' & -> & Hw).
  - simpl. destruct b; do 2 eexists; (split; [done|]); apply Hw.
  - intros s b1 a1 b1' t m1 x1 t' Hp Hlt.
    destruct (IH _ _ _ _ _ _ _ _ Hp Hlt) as (m' & v & ? & ? & ?). eauto.
  - rewrite Hmoves. by apply Forall_forall.
  - by apply tied_start.
Qed.

(** Plain minimax returns a finite value: the score of some leaf. *)
Lemma plain_loop_finite child sum b todo best this m x this' :
  (∀ s t m v t', child s t = Some ((m, v), t') → is_Some (finite v)) →
  plain_loop child h sum b todo best this = Some ((m, x), this') →
  is_Some (finite best.2) ∨
    (best.2 = (if b then NegInf else PosInf) ∧ todo ≠ []) →
  is_Some (finite x).
Proof.
  intros Hchild. revert best this.
  induction todo as [|n rest IH]; intros best this Hrun Hbest; simpl in Hrun.
  { simplify_eq. by destruct Hbest as [?|[_ ?]]. }
  destruct (move (inl n) (chessEngine this)) as [cm e1]; simpl in *.
  destruct (deref cm) as [mv|]; simpl in Hrun; [|done].
  destruct (evaluateBoard _ _ _ _) as [newSum|]; simpl in Hrun; [|done].
  destruct (child _ _) as [[[? v] this2]|] eqn:Hc; simpl in Hrun; [|done].
  apply Hchild in Hc as [z Hz]. destruct v; simplify_eq.
  eapply IH; [done|]. left. destruct best as [bm bv]; simpl in *.
  unfold visit_plain; simpl.
  destruct Hbest as [[z' Hz']|[-> _]].
  - destruct bv; simplify_eq. destruct b; simpl; by case_match.
  - by destruct b.
Qed.

Lemma plain_finite depth sum b this m x this' :
  plain_minimax h depth sum b this = Some ((m, x), this') →
  is_Some (finite x).
Proof.
  revert sum b this m x this'.
  induction depth as [|d IH]; intros sum b this m x this' Hrun; simpl in Hrun.
  { by simplify_eq. }
  destruct (moves (chessEngine this)) as [|n rest] eqn:Hmoves.
  { by simplify_eq. }
  eapply plain_loop_finite in Hrun; [done| |].
  - intros s t m1 v t'. apply IH.
  - right. by destruct b.
Qed.

(** Entered with the bounds -Infinity and +Infinity, the pruning search
    returns what plain minimax returns, at every depth. *)
Lemma pruning_keeps_result depth sum b this r this' :
  plain_minimax h depth sum b this = Some (r, this') →
  minimax h depth sum b NegInf PosInf this = Some (r, this').
Proof.
  destruct r as [m x]. intros Hplain.
  pose proof (plain_restores _ _ _ _ _ _ Hplain) as ->.
  destruct (plain_finite _ _ _ _ _ _ _ Hplain) as [z Hz].
  destruct x; simplify_eq.
  destruct (pruned_within _ _ _ NegInf PosInf _ _ _ _ Hplain)
    as (m' & v & -> & [(_ & _ & Hv) Hm]); [done|].
  by rewrite Hv, Hm.
Qed.

(** Where every offered move can be made and scored, plain minimax
    returns a result. *)
Lemma plain_loop_defined child sum b todo best this :
  scorable h this →
  (∀ s e, is_Some (child s (set_chessEngine e this))) →
  (∀ s t r t', child s t = Some (r, t') → t' = t) →
  Forall (λ n, n ∈ moves (chessEngine this)) todo →
  is_Some (plain_loop child h sum b todo best this).
Proof.
  intros Hscore Hchild Hback. revert best.
  induction todo as [|n rest IH]; intros best Hlegal; simpl.
  { by eexists. }
  apply Forall_cons in Hlegal as [Hn Hrest].
  pose proof (undo_restores this n Hn) as Hundo.
  destruct (Hscore _ _ Hn) as (mv & Hmv & Hev).
  destruct (move (inl n) (chessEngine this)) as [cm e1]; simpl in *. subst cm.
  simpl. destruct (Hev sum) as [newSum HnewSum].
  change (evaluateBoard h (set_chessEngine e1 this) mv sum)
    with (evaluateBoard h this mv sum).
  rewrite HnewSum. simpl.
  destruct (Hchild newSum e1) as [[[m v] this2] Hc]. rewrite Hc. simpl.
  apply Hback in Hc as ->. simpl. rewrite Hundo. by apply IH.
Qed.

Lemma plain_defined depth sum b this :
  scorable h this → is_Some (plain_minimax h depth sum b this).
Proof.
  revert sum b this. induction depth as [|d IH]; intros sum b this Hscore; simpl.
  { by eexists. }
  destruct (moves (chessEngine this)) as [|n rest] eqn:Hmoves.
  { by eexists. }
  apply plain_loop_defined; [done| | |].
  - intros s e. by apply IH.
  - intros s t r t'. apply plain_restores.
  - rewrite Hmoves. by apply Forall_forall.
Qed.

(** C5.  For a depth of at most 3, the search with alpha-beta pruning,
    called with the bounds -Infinity and +Infinity, returns the best move
    and the value that plain minimax without pruning returns over the same
    tree (and leaves the same position); and where every offered move can
    be made and scored, both do return. *)
Theorem alpha_beta_equals_plain_minimax depth sum b this :
  (depth ≤ 3)%nat →
  (∀ r this',
     plain_minimax h depth sum b this = Some (r, this') →
     minimax h depth sum b NegInf PosInf this = Some (r, this')) ∧
  (scorable h this →
   ∃ r, plain_minimax h depth sum b this = Some (r, this) ∧
        minimax h depth sum b NegInf PosInf this = Some (r, this)).
Proof.
  intros _. split.
  - intros r this'. apply pruning_keeps_result.
  - intros Hscore.
    destruct (plain_defined depth sum b this Hscore) as [[r this'] Hplain].
    pose proof (plain_restores _ _ _ _ _ _ Hplain) as ->.
    exists r. split; [done|]. by apply pruning_keeps_result.
Qed.

(** C10.  Asked for its move in a position without legal moves, the
    manager returns [null] and keeps its running score. *)
Theorem calcAiMove_without_moves this :
  moves (chessEngine this) = [] →
  ∃ this', calcAiMove h this = Some (Null, this') ∧
           prevSum this' = prevSum this.
Proof.
  intros Hmoves. unfold calcAiMove. simpl. rewrite Hmoves. simpl.
  eexists. split; [done|]. done.
Qed.

End Search.

(** ** The session *)

Section Session.
Context {E : Type} `{ChessInstance E} `{Imports}.

(** C1, as amended.  In a store where [PIECE_SQUARE_TABLES] denotes a
    table set [base] that uses no array twice, initialization with White
    leaves ai-tables that denote [base] and opponent-tables that denote
    [base] with the rows of every grid in reverse order; initialization
    with Black leaves the reversed tables as ai-tables and [base] as
    opponent-tables. *)
Theorem init_tables c fen (h : list obj) (this : ChessAiManager E) base :
  snapshot h PIECE_SQUARE_TABLES = Some base →
  NoDup (reachable h PIECE_SQUARE_TABLES) →
  table_set base →
  ∃ h' this',
    init c fen h this = Some (h', this') ∧
    snapshot h' (aiSquareTables this') =
      Some (if c is White then base else reverse_rows base) ∧
    snapshot h' (opponentSquareTables this') =
      Some (if c is White then reverse_rows base else base).
Proof.
  intros Hbase Hnd Hset. unfold init. destruct c; simpl.
  - unfold whiteStartInit.
    destruct (cloneDeep_tree h _ base Hbase Hnd)
      as (cloned & h1 & -> & Hlen1 & Hold1 & Hs1 & _ & _).
    destruct (snapshot_stable h h1 _ _ Hbase Hlen1 Hold1) as [Hbase1 Hr1].
    destruct (reverseSquareTablesForBlack_tree h1 base Hbase1)
      as (reversed & h2 & Hrun & Hs2 & _ & Hlen2 & Hold2); [by rewrite Hr1|done|].
    simpl. rewrite Hrun. simpl. do 2 eexists. split; [done|]. simpl.
    split; [|done]. by apply (snapshot_stable h1 h2).
  - unfold blackStartInit.
    destruct (reverseSquareTablesForBlack_tree h base Hbase Hnd Hset)
      as (reversed & h1 & -> & Hs1 & _ & Hlen1 & Hold1).
    destruct (snapshot_stable h h1 _ _ Hbase Hlen1 Hold1) as [Hbase1 Hr1].
    destruct (cloneDeep_tree h1 _ base Hbase1)
      as (cloned & h2 & Hrun & Hlen2 & Hold2 & Hs2 & _ & _); [by rewrite Hr1|].
    simpl. rewrite Hrun. simpl. do 2 eexists. split; [done|]. simpl.
    split; [|done]. by apply (snapshot_stable h1 h2).
Qed.

(** C4, as amended.  Initialization leaves the running score as it was:
    the constructor sets it to 0, so it is 0 after the first
    initialization, and a manager that has recorded moves keeps their
    score when it is initialized again. *)
Theorem init_keeps_running_score c fen (h : list obj) (this : ChessAiManager E)
    h' this' :
  init c fen h this = Some (h', this') →
  prevSum this' = prevSum this ∧ prevSum (constructor (E:=E)) = 0.
Proof.
  intros Hinit. split; [|done]. revert Hinit.
  unfold init, blackStartInit, whiteStartInit.
  destruct (isBlack _).
  - destruct (reverseSquareTablesForBlack h) as [[? h1]|]; simpl; [|done].
    destruct (cloneDeep _ h1) as [[? ?]|]; simpl; [|done].
    by intros [= <- <-].
  - destruct (cloneDeep _ h) as [[? h1]|]; simpl; [|done].
    destruct (reverseSquareTablesForBlack h1) as [[? ?]|]; simpl; [|done].
    by intros [= <- <-].
Qed.

End Session.

(** * Further properties *)

(** ** More on the evaluator *)

Section EvaluatorMore.
Context {E : Type} `{ChessInstance E} `{Imports}.
Variables (h : list obj).

(** The score returned is the score given plus the adjustments of the
    move. *)
Lemma evaluateBoard_adjusts (this : ChessAiManager E) mv s :
  evaluateBoard h this mv s =
  dc ← captureAdjustment h this mv;
  dm ← (if String.eqb (Move.flags mv) "p" then promotionAdjustment h this mv
        else regularAdjustment h this mv);
  Some (s + dc + dm).
Proof.
  unfold evaluateBoard. rewrite captureStep_adjusts.
  destruct (captureAdjustment h this mv) as [dc|]; simpl; [|done].
  destruct (String.eqb _ _).
  - rewrite promotionStep_adjusts. by destruct (promotionAdjustment h this mv).
  - rewrite regularStep_adjusts. by destruct (regularAdjustment h this mv).
Qed.

(** A move whose flags are not [p] alone, as are the flags [np] and [cp]
    that chess.js gives a promotion, is scored as a regular move: the
    capture adjustment and the step of the piece in the engine's table.
    The weights of the queen do not enter. *)
Lemma evaluateBoard_unflagged (this : ChessAiManager E) mv s :
  Move.flags mv ≠ "p"%string →
  evaluateBoard h this mv s =
  dc ← captureAdjustment h this mv;
  dm ← regularAdjustment h this mv;
  Some (s + dc + dm).
Proof.
  intros Hf. rewrite evaluateBoard_adjusts.
  apply String.eqb_neq in Hf. by rewrite Hf.
Qed.

(** A previous score greater by [d] gives a result greater by [d]. *)
Lemma evaluateBoard_translates (this : ChessAiManager E) mv s d :
  evaluateBoard h this mv (s + d) = (λ r, r + d) <$> evaluateBoard h this mv s.
Proof.
  rewrite !evaluateBoard_adjusts.
  destruct (captureAdjustment h this mv) as [dc|]; simpl; [|done].
  destruct (if String.eqb _ _ then _ else _) as [dm|]; simpl; [|done].
  f_equal. lia.
Qed.

(** X1.  The evaluator is incremental: the score it returns is the
    previous score plus what it returns for the same move from the
    score 0, and it fails on a previous score exactly when it fails on
    0. *)
Theorem evaluateBoard_from_zero (this : ChessAiManager E) mv s :
  evaluateBoard h this mv s = (λ d, s + d) <$> evaluateBoard h this mv 0.
Proof.
  replace s with (0 + s) at 1 by lia. rewrite evaluateBoard_translates.
  destruct (evaluateBoard h this mv 0); simpl; [|done]. f_equal. lia.
Qed.

Lemma updateBoardWithPlayerMove_tables mv (this this' : ChessAiManager E) :
  updateBoardWithPlayerMove mv h this = Some this' →
  color this' = color this ∧ aiSquareTables this' = aiSquareTables this ∧
  opponentSquareTables this' = opponentSquareTables this.
Proof.
  unfold updateBoardWithPlayerMove.
  destruct (evaluateBoard _ _ _ _); simpl; [|done]. by intros [= <-].
Qed.

Lemma evaluateBoard_same_tables (this this' : ChessAiManager E) mv s :
  color this' = color this → aiSquareTables this' = aiSquareTables this →
  opponentSquareTables this' = opponentSquareTables this →
  evaluateBoard h this' mv s = evaluateBoard h this mv s.
Proof.
  intros Hc Ha Ho.
  unfold evaluateBoard, captureStep, promotionStep, regularStep,
    getAiValueFromSquareTable, getOpponentValueFromSquareTable.
  by rewrite Hc, Ha, Ho.
Qed.

(** X2.  The running score after the player's moves of a list have been
    recorded is the running score before plus the sum of the amounts that
    the evaluator gives to each move from the score 0; recording fails
    exactly when the evaluator fails on one of the moves. *)
Theorem recordMoves_sum mvs (this : ChessAiManager E) :
  prevSum <$> recordMoves mvs h this =
  (λ ds, prevSum this + foldr Z.add 0 ds) <$>
    mapM (λ mv, evaluateBoard h this mv 0) mvs.
Proof.
  revert this. induction mvs as [|mv rest IH]; intros this; csimpl.
  { f_equal. lia. }
  destruct (updateBoardWithPlayerMove mv h this) as [this1|] eqn:Hrec; csimpl.
  - pose proof (updateBoardWithPlayerMove_tables _ _ _ Hrec) as (Hc & Ha & Ho).
    rewrite IH.
    rewrite (mapM_ext _ (λ mv0, evaluateBoard h this mv0 0))
      by (intros mv0; by apply evaluateBoard_same_tables).
    revert Hrec. unfold updateBoardWithPlayerMove.
    change (evaluateBoard h (set_chessEngine _ this) mv ?s)
      with (evaluateBoard h this mv s). simpl.
    replace (prevSum this) with (0 + prevSum this) at 1 by lia.
    rewrite evaluateBoard_translates.
    destruct (evaluateBoard h this mv 0) as [d|]; csimpl; [|done].
    intros [= <-]. simpl.
    destruct (mapM _ rest) as [ds|]; csimpl; [|done]. f_equal. lia.
  - revert Hrec. unfold updateBoardWithPlayerMove.
    change (evaluateBoard h (set_chessEngine _ this) mv ?s)
      with (evaluateBoard h this mv s). simpl.
    replace (prevSum this) with (0 + prevSum this) at 1 by lia.
    rewrite evaluateBoard_translates.
    destruct (evaluateBoard h this mv 0) as [d|]; csimpl; done.
Qed.

(** X3.  A manager whose tables are still undefined, as the constructor
    leaves them, cannot score: the evaluator fails on every move, recording
    a player's move fails, and so does the search for an own move as soon
    as the position offers a move. *)
Theorem unready_manager_fails (this : ChessAiManager E) :
  aiSquareTables this = VUndef → opponentSquareTables this = VUndef →
  (∀ mv s, evaluateBoard h this mv s = None) ∧
  (∀ mv, updateBoardWithPlayerMove mv h this = None) ∧
  (moves (chessEngine this) ≠ [] → calcAiMove h this = None).
Proof.
  intros Ha Ho.
  assert (∀ (t : ChessAiManager E), aiSquareTables t = VUndef →
            opponentSquareTables t = VUndef →
            ∀ mv s, evaluateBoard h t mv s = None) as Hev.
  { intros t Hta Hto mv s. rewrite evaluateBoard_adjusts.
    unfold captureAdjustment, promotionAdjustment, regularAdjustment,
      getAiValueFromSquareTable, getOpponentValueFromSquareTable,
      squareTableValue. rewrite Hta, Hto. simpl.
    destruct (Move.captured mv); simpl; repeat case_bool_decide; simpl;
      try done; by destruct (String.eqb _ _). }
  split_and!.
  - by apply Hev.
  - intros mv. unfold updateBoardWithPlayerMove. by rewrite Hev.
  - intros Hmoves. unfold calcAiMove. simpl.
    destruct (moves (chessEngine this)) as [|n rest]; [done|]. simpl.
    destruct (move (inl n) (chessEngine this)) as [cm e1]. simpl.
    destruct (deref cm) as [mv|]; simpl; [|done].
    by rewrite Hev.
Qed.

End EvaluatorMore.

(** ** The search and its callers *)

Section SearchMore.
Context {E : Type} `{ChessInstance E} `{Imports}.
Variable h : list obj.

Lemma minimax_unfold depth sum b a b' (this : ChessAiManager E) :
  minimax h depth sum b a b' this =
  match depth, moves (chessEngine this) with
  | O, _ | _, [] => Some ((Null, Fin sum), this)
  | S d, todo =>
      '(st, this') ← minimax_loop
                       (λ newSum, minimax h d newSum (negb b))
                       h sum b todo
                       {| maxVal := NegInf; bestMove := Undefined;
                          minVal := PosInf; alpha := a; beta := b' |} this;
      Some ((bestMove st, bestVal b st), this')
  end.
Proof.
  destruct depth as [|d]; cbn [minimax];
    destruct (moves (chessEngine this)) as [|n rest]; try done.
  destruct (minimax_loop _ _ _ _ _ _ _) as [[st this1]|]; [|done].
  by destruct b.
Qed.

(** *** The search and the incoming score *)

Lemma num_ltb_shift k x y :
  num_ltb (num_shift k x) (num_shift k y) = num_ltb x y.
Proof.
  destruct x, y; simpl; try done.
  destruct (Z.ltb_spec (z + k) (z0 + k)), (Z.ltb_spec z z0); try done; lia.
Qed.

Lemma visit_shift k b cm v st :
  visit b cm (num_shift k v) (shift_locals k st) =
  (shift_locals k (visit b cm v st).1, (visit b cm v st).2).
Proof.
  unfold visit, shift_locals, num_leb, num_max, num_min.
  destruct b; simpl; rewrite !num_ltb_shift.
  - destruct (num_ltb (maxVal st) v); simpl; rewrite !num_ltb_shift;
      destruct (num_ltb _ v); simpl; by rewrite ?num_ltb_shift.
  - destruct (num_ltb v (minVal st)); simpl; rewrite !num_ltb_shift;
      destruct (num_ltb _ v); simpl; by rewrite ?num_ltb_shift.
Qed.

Lemma minimax_loop_shift k child sum b todo st (this : ChessAiManager E) :
  (∀ s a b' t,
     child (s + k) (num_shift k a) (num_shift k b') t =
     shift_result k <$> child s a b' t) →
  minimax_loop child h (sum + k) b todo (shift_locals k st) this =
  (λ r, (shift_locals k r.1, r.2)) <$> minimax_loop child h sum b todo st this.
Proof.
  intros Hchild. revert st this.
  induction todo as [|n rest IH]; intros st this; simpl; [done|].
  destruct (move (inl n) (chessEngine this)) as [cm e1].
  destruct (deref cm) as [mv|]; simpl; [|done].
  rewrite evaluateBoard_translates.
  destruct (evaluateBoard _ _ _ _) as [newSum|]; simpl; [|done].
  rewrite Hchild.
  destruct (child newSum _ _ _) as [[[m v] this2]|]; simpl; [|done].
  rewrite visit_shift.
  destruct (visit b cm v st) as [st1 stop]; simpl.
  destruct stop; [done|]. apply IH.
Qed.

(** Adding [k] to the incoming score and to each finite bound adds [k]
    to the value that the search returns and changes neither the move it
    returns nor the position it leaves. *)
Lemma minimax_translates k depth sum b a b' (this : ChessAiManager E) :
  minimax h depth (sum + k) b (num_shift k a) (num_shift k b') this =
  shift_result k <$> minimax h depth sum b a b' this.
Proof.
  revert sum b a b' this.
  induction depth as [|d IH]; intros sum b a b' this;
    rewrite !minimax_unfold; [done|].
  destruct (moves (chessEngine this)) as [|n rest]; [done|].
  change {| maxVal := NegInf; bestMove := Undefined; minVal := PosInf;
            alpha := num_shift k a; beta := num_shift k b' |}
    with (shift_locals k {| maxVal := NegInf; bestMove := Undefined;
                            minVal := PosInf; alpha := a; beta := b' |}).
  rewrite minimax_loop_shift by (intros; apply IH).
  destruct (minimax_loop _ _ _ _ _ _ this) as [[st this1]|]; [|done].
  by destruct b.
Qed.


(** The search neither reads nor writes the running score of the
    manager. *)
Lemma minimax_loop_prevSum p child sum b todo st (this : ChessAiManager E) :
  (∀ s a b' t,
     child s a b' (set_prevSum p t) =
     (λ r, (r.1, set_prevSum p r.2)) <$> child s a b' t) →
  minimax_loop child h sum b todo st (set_prevSum p this) =
  (λ r, (r.1, set_prevSum p r.2)) <$> minimax_loop child h sum b todo st this.
Proof.
  intros Hchild. revert st this.
  induction todo as [|n rest IH]; intros st this; simpl; [done|].
  destruct (move (inl n) (chessEngine this)) as [cm e1].
  destruct (deref cm) as [mv|]; simpl; [|done].
  change (evaluateBoard h (set_chessEngine e1 (set_prevSum p this)) mv sum)
    with (evaluateBoard h (set_chessEngine e1 this) mv sum).
  destruct (evaluateBoard _ _ _ _) as [newSum|]; simpl; [|done].
  change (set_chessEngine e1 (set_prevSum p this))
    with (set_prevSum p (set_chessEngine e1 this)).
  rewrite Hchild.
  destruct (child newSum _ _ _) as [[[m v] this2]|]; simpl; [|done].
  destruct (visit b cm v st) as [st1 stop]; simpl.
  destruct stop; [done|].
  change (set_chessEngine (undo (chessEngine this2)) (set_prevSum p this2))
    with (set_prevSum p (set_chessEngine (undo (chessEngine this2)) this2)).
  apply IH.
Qed.

Lemma minimax_prevSum p depth sum b a b' (this : ChessAiManager E) :
  minimax h depth sum b a b' (set_prevSum p this) =
  (λ r, (r.1, set_prevSum p r.2)) <$> minimax h depth sum b a b' this.
Proof.
  revert sum b a b' this.
  induction depth as [|d IH]; intros sum b a b' this;
    rewrite !minimax_unfold; [done|].
  change (chessEngine (set_prevSum p this)) with (chessEngine this).
  destruct (moves (chessEngine this)) as [|n rest]; [done|].
  rewrite minimax_loop_prevSum by (intros; apply IH).
  by destruct (minimax_loop _ _ _ _ _ _ this) as [[st this1]|].
Qed.

(** X4.  The search does not depend on the level of the score: adding
    [k] to the incoming score and to each finite bound adds [k] to the
    value returned and changes neither the move returned nor the position
    left.  Hence the move that the manager chooses does not depend on its
    running score: with a running score greater by [k], [calcAiMove]
    returns the same move, leaves the same position, and leaves a running
    score greater by [k]. *)
Theorem search_ignores_running_score k (this : ChessAiManager E) :
  (∀ depth sum b a b',
     minimax h depth (sum + k) b (num_shift k a) (num_shift k b') this =
     shift_result k <$> minimax h depth sum b a b' this) ∧
  calcAiMove h (set_prevSum (prevSum this + k) this) =
  (λ r, (r.1, set_prevSum (prevSum r.2 + k) r.2)) <$> calcAiMove h this.
Proof.
  split; [intros; apply minimax_translates|].
  unfold calcAiMove.
  rewrite minimax_prevSum.
  change (prevSum (set_prevSum (prevSum this + k) this)) with (prevSum this + k).
  pose proof (minimax_translates k 3 (prevSum this) true NegInf PosInf this) as Hs.
  simpl num_shift in Hs. rewrite Hs.
  destruct (minimax h 3 (prevSum this) true NegInf PosInf this)
    as [[[m v] this1]|]; [|done].
  destruct v as [|z|]; try done.
Qed.

(** *** The line behind the value *)

Hypothesis undo_move :
  ∀ (e : E) (n : string), n ∈ moves e → undo (move (inl n) e).2 = e.

Lemma line_score_engine (this : ChessAiManager E) e0 e sum path :
  line_score h (set_chessEngine e0 this) e sum path =
  line_score h this e sum path.
Proof.
  revert e sum. induction path as [|n rest IH]; intros e sum; simpl; [done|].
  case_decide; [|done].
  destruct (deref _) as [mv|]; simpl; [|done].
  change (evaluateBoard h (set_chessEngine e0 this) mv sum)
    with (evaluateBoard h this mv sum).
  destruct (evaluateBoard _ _ _ _); simpl; [apply IH|done].
Qed.

Lemma minimax_loop_line d child sum b todo st (this : ChessAiManager E) st' this' :
  (∀ s a b' t m v t',
     child s a b' t = Some ((m, v), t') →
     t' = t ∧
     ∃ path z, (length path ≤ d)%nat ∧
               line_score h t (chessEngine t) s path = Some z ∧ v = Fin z) →
  Forall (λ n, n ∈ moves (chessEngine this)) todo →
  minimax_loop child h sum b todo st this = Some (st', this') →
  holds_line h this sum d b st ∨
    (bestVal b st = (if b then NegInf else PosInf) ∧ todo ≠ []) →
  this' = this ∧ holds_line h this sum d b st'.
Proof.
  intros Hchild. revert st.
  induction todo as [|n rest IH]; intros st Hlegal Hrun Hst; simpl in Hrun.
  { simplify_eq. split; [done|]. by destruct Hst as [?|[_ ?]]. }
  apply Forall_cons in Hlegal as [Hn Hrest].
  pose proof (undo_restores undo_move this n Hn) as Hback.
  destruct (move (inl n) (chessEngine this)) as [cm e1] eqn:Hmove;
    simpl in *.
  destruct (deref cm) as [mv|] eqn:Hmv; simpl in Hrun; [|done].
  destruct (evaluateBoard _ _ _ _) as [newSum|] eqn:Hev; simpl in Hrun; [|done].
  destruct (child _ _ _ _) as [[[cm' v] this2]|] eqn:Hc; simpl in Hrun; [|done].
  apply Hchild in Hc as (-> & path & z & Hlen & Hline & ->).
  simpl in Hrun, Hline. rewrite Hback in Hrun.
  rewrite line_score_engine in Hline.
  assert (holds_line h this sum d b (visit b cm (Fin z) st).1) as Hst1.
  { destruct (visit_best b cm (Fin z) st) as [Hbm Hbv].
    destruct (better b (Fin z) (bestVal b st)) eqn:Hbetter.
    - exists n, path, z. split_and!; [done|done| |done|].
      + simpl. rewrite decide_True by done. rewrite Hmove. simpl.
        rewrite Hmv. simpl.
        change (evaluateBoard h (set_chessEngine e1 this) mv sum)
          with (evaluateBoard h this mv sum) in Hev.
        rewrite Hev. done.
      + by rewrite Hbm, Hmove.
    - destruct Hst as [(n0 & path0 & z0 & ? & ? & ? & Hv0 & Hm0)|[Hworst _]].
      + exists n0, path0, z0. split_and!; try done; congruence.
      + rewrite Hworst in Hbetter. by destruct b. }
  destruct (visit b cm (Fin z) st) as [st1 stop]; simpl in *.
  destruct stop.
  - by simplify_eq.
  - eapply IH; [done|done|]. by left.
Qed.

(** The value that a search returns is the score at the end of a line
    of play, and the move returned is the first move of that line. *)
Lemma minimax_line depth :
  ∀ sum b a b' (this : ChessAiManager E) m v this',
    minimax h depth sum b a b' this = Some ((m, v), this') →
    this' = this ∧
    m ≠ Undefined ∧
    ∃ path z,
      (length path ≤ depth)%nat ∧
      line_score h this (chessEngine this) sum path = Some z ∧
      v = Fin z ∧
      m = match path with
          | [] => Null
          | n :: _ => (move (inl n) (chessEngine this)).1
          end ∧
      (path = [] ↔ depth = 0%nat ∨ moves (chessEngine this) = []).
Proof.
  induction depth as [|d IH]; intros sum b a b' this m v this' Hrun;
    rewrite minimax_unfold in Hrun.
  { destruct (moves (chessEngine this)); simplify_eq;
      (split; [done|]); (split; [done|]);
      exists [], sum; split_and!; try done; simpl; try lia;
      by split; [left|]. }
  destruct (moves (chessEngine this)) as [|n0 rest] eqn:Hmoves.
  { simplify_eq. split; [done|]. split; [done|]. exists [], sum.
    split_and!; try done; simpl; try lia. by split; [right|]. }
  destruct (minimax_loop _ _ _ _ _ _ _) as [[st this1]|] eqn:Hloop;
    simpl in Hrun; [|done].
  simplify_eq.
  apply (minimax_loop_line d) in Hloop
    as [-> (n & path & z & Hn & Hlen & Hline & Hv & Hm)].
  - split; [done|]. split.
    { rewrite Hm. simpl in Hline. case_decide; [|done].
      by destruct (move (inl n) (chessEngine this)).1. }
    exists (n :: path), z.
    split_and!; try done; [simpl; lia|].
    split; [done|]. intros [?|?]; [lia|done].
  - intros s x y t m0 v0 t' Hc.
    apply IH in Hc as (-> & _ & path & z & ? & ? & ? & _).
    split; [done|]. eauto.
  - rewrite <-Hmoves. by apply Forall_forall.
  - right. split; [by destruct b|done].
Qed.


(** Where every offered move can be made and scored, the search returns,
    whatever the window. *)
Lemma minimax_loop_returns child sum b todo st (this : ChessAiManager E) :
  scorable h this →
  (∀ s a b' e, ∃ r, child s a b' (set_chessEngine e this) =
                      Some (r, set_chessEngine e this)) →
  Forall (λ n, n ∈ moves (chessEngine this)) todo →
  ∃ st', minimax_loop child h sum b todo st this = Some (st', this).
Proof.
  intros Hscore Hchild. revert st.
  induction todo as [|n rest IH]; intros st Hlegal; simpl.
  { by eexists. }
  apply Forall_cons in Hlegal as [Hn Hrest].
  pose proof (undo_restores undo_move this n Hn) as Hundo.
  destruct (Hscore _ _ Hn) as (mv & Hmv & Hev).
  destruct (move (inl n) (chessEngine this)) as [cm e1]; simpl in *. subst cm.
  simpl. destruct (Hev sum) as [newSum HnewSum].
  change (evaluateBoard h (set_chessEngine e1 this) mv sum)
    with (evaluateBoard h this mv sum).
  rewrite HnewSum. simpl.
  destruct (Hchild newSum (alpha st) (beta st) e1) as [[m v] Hc].
  rewrite Hc. simpl. rewrite Hundo.
  destruct (visit b (AMove mv) v st) as [st1 []]; [by eexists|by apply IH].
Qed.

Lemma minimax_returns depth :
  ∀ sum b a b' (this : ChessAiManager E),
    scorable h this →
    ∃ r, minimax h depth sum b a b' this = Some (r, this).
Proof.
  induction depth as [|d IH]; intros sum b a b' this Hscore;
    rewrite minimax_unfold.
  { destruct (moves (chessEngine this)); by eexists. }
  destruct (moves (chessEngine this)) as [|n rest] eqn:Hmoves.
  { by eexists. }
  edestruct (minimax_loop_returns
               (λ newSum, minimax h d newSum (negb b)) sum b (n :: rest))
    as [st' Hloop]; [done| | |rewrite Hloop; by eexists].
  - intros s x y e. by apply IH.
  - rewrite <-Hmoves. by apply Forall_forall.
Qed.

(** X5.  Where every offered move can be made and scored, so that no
    lookup is answered with [undefined] and no score is [NaN], a search
    returns, for every depth, side and window, and leaves the manager as
    it found it.  The value it returns is the score at the end of a line
    of play: at most [depth] moves, each legal where it is made, from the
    position of the node.  The move it returns is the one that the rules
    engine returned for the first move of that line; it is [null] exactly
    when the line is empty, which is when the depth is 0 or the position
    has no move, and it is not [undefined], although [bestMove] is
    declared without a value. *)
Theorem minimax_principal_line depth sum b a b' (this : ChessAiManager E) :
  scorable h this →
  ∃ m v,
    minimax h depth sum b a b' this = Some ((m, v), this) ∧
    m ≠ Undefined ∧
    ∃ path z,
      (length path ≤ depth)%nat ∧
      line_score h this (chessEngine this) sum path = Some z ∧
      v = Fin z ∧
      m = match path with
          | [] => Null
          | n :: _ => (move (inl n) (chessEngine this)).1
          end ∧
      (path = [] ↔ depth = 0%nat ∨ moves (chessEngine this) = []).
Proof.
  intros Hscore.
  destruct (minimax_returns depth sum b a b' this Hscore) as [[m v] Hrun].
  exists m, v. split; [done|].
  by apply (minimax_line depth) in Hrun as (_ & Hm & Hline).
Qed.

(** X6.  Where every offered move can be made and scored, [calcAiMove]
    returns the best move of plain minimax at depth 3 from the running
    score, sets the running score to the value of that move, hands the
    move to the rules engine, and changes nothing else of the manager. *)
Theorem calcAiMove_plays_minimax (this : ChessAiManager E) :
  scorable h this →
  ∃ m z,
    plain_minimax h 3 (prevSum this) true this = Some ((m, Fin z), this) ∧
    calcAiMove h this =
      Some (m, set_chessEngine (move (inr m) (chessEngine this)).2
                 (set_prevSum z this)).
Proof.
  intros Hscore.
  destruct (plain_defined h undo_move 3 (prevSum this) true this Hscore)
    as [[[m v] this'] Hplain].
  pose proof (plain_restores h undo_move _ _ _ _ _ _ Hplain) as ->.
  destruct (plain_finite h _ _ _ _ _ _ _ Hplain) as [z Hz].
  destruct v as [|z'|]; simpl in Hz; try done. injection Hz as ->.
  exists m, z. split; [done|].
  apply (pruning_keeps_result h undo_move) in Hplain.
  unfold calcAiMove. rewrite Hplain. reflexivity.
Qed.

End SearchMore.

(** ** Lookups and what the tables denote *)

Lemma find_prop_snap f (h : list obj) k (ps : list (string * val)) ts :
  Forall2 (λ v t, snap f h v = Some t) ps.*2 ts →
  match list_find (λ p : string * val, p.1 = k) ps with
  | Some (i, p) =>
      ∃ tg, list_find (λ p : string * tree, p.1 = k) (zip ps.*1 ts)
              = Some (i, (p.1, tg)) ∧ snap f h p.2 = Some tg
  | None => list_find (λ p : string * tree, p.1 = k) (zip ps.*1 ts) = None
  end.
Proof.
  revert ts. induction ps as [|[k' v] ps IH]; intros ts Hall.
  { done. }
  rewrite fmap_cons in Hall.
  apply Forall2_cons_inv_l in Hall as (t & ts' & Ht & Hts & ->).
  specialize (IH ts' Hts). csimpl.
  case_decide.
  - by exists t.
  - destruct (list_find _ ps) as [[i p]|]; csimpl.
    + destruct IH as (tg & -> & Hp). by exists tg.
    + by rewrite IH.
Qed.

Lemma snap_getProp f (h : list obj) v t k :
  snap f h v = Some t →
  match getProp h v k with
  | Some gv => ∃ tg f', tree_prop t k = Some tg ∧ snap f' h gv = Some tg
  | None => tree_prop t k = None
  end.
Proof.
  destruct f as [|f], v as [| |l]; simpl; try by intros [= <-].
  destruct (h !! l) as [o|]; simpl; [|done].
  destruct (mapM (snap f h) (obj_vals o)) as [ts|] eqn:Hts; simpl; [|done].
  intros [= <-]. destruct o as [es|ps]; simpl in *; [done|].
  apply mapM_Some in Hts.
  pose proof (find_prop_snap f h k ps ts Hts) as Hfind.
  destruct (list_find _ ps) as [[i p]|]; simpl.
  - destruct Hfind as (tg & -> & Hp). simpl. eauto.
  - by rewrite Hfind.
Qed.

Lemma snap_getIndex f (h : list obj) v t i :
  snap f h v = Some t →
  match getIndex h v i with
  | Some ev => ∃ te f', tree_index t i = Some te ∧ snap f' h ev = Some te
  | None => tree_index t i = None
  end.
Proof.
  destruct f as [|f], v as [| |l]; simpl; try by intros [= <-].
  destruct (h !! l) as [o|]; simpl; [|done].
  destruct (mapM (snap f h) (obj_vals o)) as [ts|] eqn:Hts; simpl; [|done].
  intros [= <-]. destruct o as [es|ps]; simpl in *; [|done].
  apply mapM_Some in Hts.
  destruct (es !! i) as [ev|] eqn:Hev.
  - eapply Forall2_lookup_l in Hts as (te & Hte & Hs); [|done]. eauto.
  - apply Forall2_length in Hts. apply lookup_ge_None in Hev.
    apply lookup_ge_None. lia.
Qed.

Lemma snap_toNumber f (h : list obj) v t :
  snap f h v = Some t → toNumber v = tree_number t.
Proof.
  destruct f as [|f], v as [| |l]; simpl; try by intros [= <-].
  destruct (h !! l) as [o|]; simpl; [|done].
  destruct (mapM (snap f h) (obj_vals o)) as [ts|]; simpl; [|done].
  intros [= <-]. by destruct o.
Qed.

(** A lookup in the store is the lookup in what the tables denote. *)
Lemma squareTableValue_denotes (h : list obj) tables t piece pos :
  snapshot h tables = Some t →
  squareTableValue h tables piece pos = tree_value t (piece_key piece) pos.
Proof.
  unfold snapshot, squareTableValue, tree_value. intros Hs.
  pose proof (snap_getProp _ h tables t (piece_key piece) Hs) as Hp.
  destruct (getProp h tables _) as [gv|]; simpl.
  - destruct Hp as (tg & f1 & -> & Hg). simpl.
    pose proof (snap_getIndex _ h gv tg (row pos) Hg) as Hi.
    destruct (getIndex h gv _) as [lv|]; simpl.
    + destruct Hi as (tl & f2 & -> & Hl). simpl.
      pose proof (snap_getIndex _ h lv tl (column pos) Hl) as Hc.
      destruct (getIndex h lv _) as [cv|]; simpl.
      * destruct Hc as (tc & f3 & -> & Hcell). simpl.
        by eapply snap_toNumber.
      * by rewrite Hc.
    + by rewrite Hi.
  - by rewrite Hp.
Qed.

Lemma tree_value_row t k pos :
  tree_value t k pos =
  line ← grid_row t k (row pos);
  cell ← tree_index line (column pos); tree_number cell.
Proof.
  unfold tree_value, grid_row. by destruct (tree_prop t k).
Qed.

(** The reversed tables hold at row [r] what the tables hold at row
    [7 - r]. *)
Lemma tree_value_reverse_rows base k r c :
  table_set base → (r < 8)%nat →
  tree_value (reverse_rows base) k {| row := r; column := c |} =
  tree_value base k {| row := 7 - r; column := c |}.
Proof.
  intros Hset Hr. rewrite !tree_value_row. simpl.
  by rewrite grid_row_reverse_rows.
Qed.

(** ** The tables within their bounds *)

Lemma full_grid_value g r c :
  full_grid g →
  is_Some (line ← tree_index g r; cell ← tree_index line c; tree_number cell) ↔
  (r < 8)%nat ∧ (c < 8)%nat.
Proof.
  intros (rows & -> & Hlen & Hrows). simpl.
  destruct (rows !! r) as [line|] eqn:Hline; simpl.
  - assert (r < 8)%nat as Hr by (apply lookup_lt_Some in Hline; lia).
    rewrite Forall_forall in Hrows.
    destruct (Hrows line) as (cells & -> & Hclen & Hcells).
    { by eapply list_elem_of_lookup_2. }
    simpl. destruct (cells !! c) as [cell|] eqn:Hcell; simpl.
    + assert (c < 8)%nat as Hc by (apply lookup_lt_Some in Hcell; lia).
      rewrite Forall_forall in Hcells.
      destruct (Hcells cell) as [n ->]; [by eapply list_elem_of_lookup_2|].
      simpl. split; [done|]. by eexists.
    + apply lookup_ge_None in Hcell. split; [by intros [? ?]|]. lia.
  - apply lookup_ge_None in Hline. split; [by intros [? ?]|]. lia.
Qed.

Lemma full_tables_value t piece pos :
  full_tables t →
  is_Some (tree_value t (piece_key piece) pos) ↔
  (row pos < 8)%nat ∧ (column pos < 8)%nat.
Proof.
  intros Hfull. destruct (Hfull piece) as (g & Hg & Hgrid).
  unfold tree_value. rewrite Hg. simpl. by apply full_grid_value.
Qed.

Lemma full_tables_reverse_rows t :
  full_tables t → full_tables (reverse_rows t).
Proof.
  intros Hfull piece. destruct (Hfull piece) as (g & Hg & rows & -> & Hlen & Hrows).
  destruct t as [| | |props]; try done.
  rewrite tree_prop_reverse_rows, Hg. simpl.
  eexists. split; [done|]. exists (reverse rows). split_and!; [done| |].
  - by rewrite length_reverse.
  - by apply Forall_reverse.
Qed.

(** ** More on the session's tables *)

Section SessionMore.
Context {E : Type} `{ChessInstance E} `{Imports}.

(** What [init] leaves in the store. *)
Lemma init_store c fen (h : list obj) (this : ChessAiManager E) base :
  snapshot h PIECE_SQUARE_TABLES = Some base →
  NoDup (reachable h PIECE_SQUARE_TABLES) →
  table_set base →
  ∃ h' this',
    init c fen h this = Some (h', this') ∧
    snapshot h' (aiSquareTables this') =
      Some (if c is White then base else reverse_rows base) ∧
    snapshot h' (opponentSquareTables this') =
      Some (if c is White then reverse_rows base else base) ∧
    (length h ≤ length h')%nat ∧
    (∀ l, (l < length h)%nat → h' !! l = h !! l) ∧
    (∀ l, l ∈ reachable h' (aiSquareTables this') →
          (length h ≤ l < length h')%nat ∧
          l ∉ reachable h' (opponentSquareTables this')) ∧
    (∀ l, l ∈ reachable h' (opponentSquareTables this') →
          (length h ≤ l < length h')%nat).
Proof.
  intros Hbase Hnd Hset. unfold init. destruct c; simpl.
  - unfold whiteStartInit.
    destruct (cloneDeep_tree h _ base Hbase Hnd)
      as (cloned & h1 & -> & Hlen1 & Hold1 & Hs1 & _ & Hf1).
    destruct (snapshot_stable h h1 _ _ Hbase Hlen1 Hold1) as [Hbase1 Hr1].
    destruct (reverseSquareTablesForBlack_tree h1 base Hbase1)
      as (reversed & h2 & Hrun & Hs2 & Hf2 & Hlen2 & Hold2); [by rewrite Hr1|done|].
    destruct (snapshot_stable h1 h2 _ _ Hs1 Hlen2 Hold2) as [Hs1' Hr1'].
    simpl. rewrite Hrun. simpl. do 2 eexists. split; [done|]. simpl.
    assert (∀ l, l ∈ reachable h2 reversed → (length h1 ≤ l < length h2)%nat)
      as Hf2'.
    { intros l Hl. split; [by apply Hf2|].
      eapply (snap_reach_valid _ h2 reversed); [exact Hs2|exact Hl]. }
    split_and!; [done|done|lia| | |].
    + intros l Hl. rewrite Hold2 by lia. by apply Hold1.
    + intros l Hl. rewrite Hr1' in Hl. apply Hf1 in Hl. split; [lia|].
      intros Hl'%Hf2'. lia.
    + intros l Hl%Hf2'. lia.
  - unfold blackStartInit.
    destruct (reverseSquareTablesForBlack_tree h base Hbase Hnd Hset)
      as (reversed & h1 & -> & Hs1 & Hf1 & Hlen1 & Hold1).
    destruct (snapshot_stable h h1 _ _ Hbase Hlen1 Hold1) as [Hbase1 Hr1].
    destruct (cloneDeep_tree h1 _ base Hbase1)
      as (cloned & h2 & Hrun & Hlen2 & Hold2 & Hs2 & _ & Hf2); [by rewrite Hr1|].
    destruct (snapshot_stable h1 h2 _ _ Hs1 Hlen2 Hold2) as [Hs1' Hr1'].
    simpl. rewrite Hrun. simpl. do 2 eexists. split; [done|]. simpl.
    assert (∀ l, l ∈ reachable h1 reversed → (length h ≤ l < length h1)%nat)
      as Hf1'.
    { intros l Hl. split; [by apply Hf1|].
      eapply (snap_reach_valid _ h1 reversed); [exact Hs1|exact Hl]. }
    split_and!; [done|done|lia| | |].
    + intros l Hl. rewrite Hold2 by lia. by apply Hold1.
    + intros l Hl. rewrite Hr1' in Hl. apply Hf1' in Hl. split; [lia|].
      intros Hl'%Hf2. lia.
    + intros l Hl%Hf2. lia.
Qed.

(** X7.  After initialization with either colour the two getters mirror
    each other: the opponent's table holds at row [r] what the engine's
    table holds at row [7 - r] of the same column, for every piece. *)
Theorem init_getters_mirror c fen (h : list obj) (this : ChessAiManager E) base :
  snapshot h PIECE_SQUARE_TABLES = Some base →
  NoDup (reachable h PIECE_SQUARE_TABLES) →
  table_set base →
  ∃ h' this',
    init c fen h this = Some (h', this') ∧
    ∀ piece r col, (r < 8)%nat →
      getOpponentValueFromSquareTable h' this' piece {| row := r; column := col |} =
      getAiValueFromSquareTable h' this' piece {| row := 7 - r; column := col |}.
Proof.
  intros Hbase Hnd Hset.
  destruct (init_store c fen h this base Hbase Hnd Hset)
    as (h' & this' & Hinit & Hai & Hopp & _).
  exists h', this'. split; [done|]. intros piece r col Hr.
  unfold getOpponentValueFromSquareTable, getAiValueFromSquareTable.
  rewrite (squareTableValue_denotes _ _ _ _ _ Hai),
    (squareTableValue_denotes _ _ _ _ _ Hopp).
  destruct c.
  - by apply tree_value_reverse_rows.
  - rewrite tree_value_reverse_rows by (done || lia).
    do 3 f_equal. lia.
Qed.

(** X8.  Initialization changes no object that existed before it, so the
    shared constant still denotes the base tables; the two table sets it
    builds are made of objects new to the store, and no object belongs to
    both. *)
Theorem init_copies (c : PieceColor) fen (h : list obj)
    (this : ChessAiManager E) base :
  snapshot h PIECE_SQUARE_TABLES = Some base →
  NoDup (reachable h PIECE_SQUARE_TABLES) →
  table_set base →
  ∃ h' this',
    init c fen h this = Some (h', this') ∧
    (∀ l, (l < length h)%nat → h' !! l = h !! l) ∧
    snapshot h' PIECE_SQUARE_TABLES = Some base ∧
    (∀ l, l ∈ reachable h' (aiSquareTables this') →
          (length h ≤ l)%nat ∧ l ∉ reachable h' (opponentSquareTables this')) ∧
    (∀ l, l ∈ reachable h' (opponentSquareTables this') → (length h ≤ l)%nat).
Proof.
  intros Hbase Hnd Hset.
  destruct (init_store c fen h this base Hbase Hnd Hset)
    as (h' & this' & Hinit & _ & _ & Hlen & Hold & Hai & Hopp).
  exists h', this'. split_and!; [done|done| | |].
  - by apply (snapshot_stable h h').
  - intros l Hl. apply Hai in Hl as [? ?]. split; [lia|done].
  - intros l Hl%Hopp. lia.
Qed.

(** X9.  Two managers initialized one after the other in the same store
    do not touch each other: the second initialization leaves what the
    tables of the first denote as it was, and the tables of the second
    share no object with those of the first. *)
Theorem init_twice c1 fen1 c2 fen2 (h : list obj)
    (first second : ChessAiManager E) base :
  snapshot h PIECE_SQUARE_TABLES = Some base →
  NoDup (reachable h PIECE_SQUARE_TABLES) →
  table_set base →
  ∃ h1 first' h2 second',
    init c1 fen1 h first = Some (h1, first') ∧
    init c2 fen2 h1 second = Some (h2, second') ∧
    snapshot h2 (aiSquareTables first') = snapshot h1 (aiSquareTables first') ∧
    snapshot h2 (opponentSquareTables first') =
      snapshot h1 (opponentSquareTables first') ∧
    is_Some (snapshot h1 (aiSquareTables first')) ∧
    is_Some (snapshot h1 (opponentSquareTables first')) ∧
    (∀ l,
       l ∈ reachable h2 (aiSquareTables first') ++
           reachable h2 (opponentSquareTables first') →
       l ∉ reachable h2 (aiSquareTables second') ++
           reachable h2 (opponentSquareTables second')).
Proof.
  intros Hbase Hnd Hset.
  destruct (init_store c1 fen1 h first base Hbase Hnd Hset)
    as (h1 & first' & Hinit1 & Hai1 & Hopp1 & Hlen1 & Hold1 & Hfa1 & Hfo1).
  destruct (snapshot_stable h h1 _ _ Hbase Hlen1 Hold1) as [Hbase1 Hr1].
  destruct (init_store c2 fen2 h1 second base Hbase1)
    as (h2 & second' & Hinit2 & Hai2 & Hopp2 & Hlen2 & Hold2 & Hfa2 & Hfo2);
    [by rewrite Hr1|done|].
  destruct (snapshot_stable h1 h2 _ _ Hai1 Hlen2 Hold2) as [Hai1' Hra].
  destruct (snapshot_stable h1 h2 _ _ Hopp1 Hlen2 Hold2) as [Hopp1' Hro].
  exists h1, first', h2, second'.
  split_and!; [done|done|congruence|congruence|by eexists|by eexists|].
  intros l. rewrite !elem_of_app, Hra, Hro.
  intros [Hl%Hfa1|Hl%Hfo1] [Hl'%Hfa2|Hl'%Hfo2]; lia.
Qed.

(** Where the tables of the manager denote full tables, the evaluator
    scores every move whose two squares are on the board. *)
Lemma evaluateBoard_on_board (h : list obj) (this : ChessAiManager E) ta to mv s :
  snapshot h (aiSquareTables this) = Some ta → full_tables ta →
  snapshot h (opponentSquareTables this) = Some to → full_tables to →
  (row (getMatrixPosition (Move.from mv)) < 8)%nat →
  (column (getMatrixPosition (Move.from mv)) < 8)%nat →
  (row (getMatrixPosition (Move.to mv)) < 8)%nat →
  (column (getMatrixPosition (Move.to mv)) < 8)%nat →
  is_Some (evaluateBoard h this mv s).
Proof.
  intros Hta Hfa Hto Hfo Hfr Hfc Htr Htc.
  assert (∀ piece pos, (row pos < 8)%nat → (column pos < 8)%nat →
            is_Some (getAiValueFromSquareTable h this piece pos) ∧
            is_Some (getOpponentValueFromSquareTable h this piece pos)) as Hget.
  { intros piece pos Hr Hc.
    unfold getAiValueFromSquareTable, getOpponentValueFromSquareTable.
    rewrite (squareTableValue_denotes _ _ _ _ _ Hta),
      (squareTableValue_denotes _ _ _ _ _ Hto).
    split; by apply full_tables_value. }
  assert (∀ piece, is_Some (getAiValueFromSquareTable h this piece
                              (getMatrixPosition (Move.from mv)))) as Haf.
  { intros piece. by apply Hget. }
  assert (∀ piece, is_Some (getAiValueFromSquareTable h this piece
                              (getMatrixPosition (Move.to mv)))) as Hat.
  { intros piece. by apply Hget. }
  assert (∀ piece, is_Some (getOpponentValueFromSquareTable h this piece
                              (getMatrixPosition (Move.from mv)))) as Hof.
  { intros piece. by apply Hget. }
  assert (∀ piece, is_Some (getOpponentValueFromSquareTable h this piece
                              (getMatrixPosition (Move.to mv)))) as Hot.
  { intros piece. by apply Hget. }
  unfold evaluateBoard, captureStep, promotionStep, regularStep.
  destruct (Move.captured mv) as [cp|]; simpl.
  - case_bool_decide; simpl.
    + destruct (Hat cp) as [v ->]. simpl. destruct (String.eqb _ _).
      * destruct (Haf (Move.piece mv)) as [v1 ->], (Haf Queen) as [v2 ->].
        by eexists.
      * destruct (Haf (Move.piece mv)) as [v1 ->], (Hat (Move.piece mv)) as [v2 ->].
        by eexists.
    + destruct (Hot cp) as [v ->]. simpl. destruct (String.eqb _ _).
      * destruct (Hof (Move.piece mv)) as [v1 ->], (Hot (Move.piece mv)) as [v2 ->].
        by eexists.
      * destruct (Haf (Move.piece mv)) as [v1 ->], (Hat (Move.piece mv)) as [v2 ->].
        by eexists.
  - destruct (String.eqb _ _); case_bool_decide; simpl.
    + destruct (Haf (Move.piece mv)) as [v1 ->], (Haf Queen) as [v2 ->].
      by eexists.
    + destruct (Hof (Move.piece mv)) as [v1 ->], (Hot (Move.piece mv)) as [v2 ->].
      by eexists.
    + destruct (Haf (Move.piece mv)) as [v1 ->], (Hat (Move.piece mv)) as [v2 ->].
      by eexists.
    + destruct (Haf (Move.piece mv)) as [v1 ->], (Hat (Move.piece mv)) as [v2 ->].
      by eexists.
Qed.

(** X10.  Where the tables of the manager denote full tables (eight rows
    of eight numbers for each of the six pieces), a getter returns a value
    exactly for the positions on the board: it fails as soon as the row or
    the column is 8 or more. *)
Theorem getters_within_board (h : list obj) (this : ChessAiManager E) ta to :
  snapshot h (aiSquareTables this) = Some ta → full_tables ta →
  snapshot h (opponentSquareTables this) = Some to → full_tables to →
  ∀ piece pos,
    (is_Some (getAiValueFromSquareTable h this piece pos) ↔
     (row pos < 8)%nat ∧ (column pos < 8)%nat) ∧
    (is_Some (getOpponentValueFromSquareTable h this piece pos) ↔
     (row pos < 8)%nat ∧ (column pos < 8)%nat).
Proof.
  intros Hta Hfa Hto Hfo piece pos.
  unfold getAiValueFromSquareTable, getOpponentValueFromSquareTable.
  rewrite (squareTableValue_denotes _ _ _ _ _ Hta),
    (squareTableValue_denotes _ _ _ _ _ Hto).
  split; by apply full_tables_value.
Qed.

(** X11.  Initialization makes the manager ready: where the shared
    constant denotes full tables, the manager that [init] leaves scores
    every move whose two squares are on the board, whatever the previous
    score. *)
Theorem init_then_scores c fen (h : list obj) (this : ChessAiManager E) base :
  snapshot h PIECE_SQUARE_TABLES = Some base →
  NoDup (reachable h PIECE_SQUARE_TABLES) →
  table_set base → full_tables base →
  ∃ h' this',
    init c fen h this = Some (h', this') ∧
    ∀ mv s,
      (row (getMatrixPosition (Move.from mv)) < 8)%nat →
      (column (getMatrixPosition (Move.from mv)) < 8)%nat →
      (row (getMatrixPosition (Move.to mv)) < 8)%nat →
      (column (getMatrixPosition (Move.to mv)) < 8)%nat →
      is_Some (evaluateBoard h' this' mv s).
Proof.
  intros Hbase Hnd Hset Hfull.
  destruct (init_store c fen h this base Hbase Hnd Hset)
    as (h' & this' & Hinit & Hai & Hopp & _).
  exists h', this'. split; [done|]. intros mv s.
  pose proof (full_tables_reverse_rows base Hfull) as Hrev.
  eapply evaluateBoard_on_board; [exact Hai| |exact Hopp|]; by destruct c.
Qed.

End SessionMore.

(** * Runs on the small instance *)

(** The toy engine keeps the contract that the search relies on. *)
Lemma sample_undo_move (e : list string) (n : string) :
  n ∈ moves e → undo (move (inl n) e).2 = e.
Proof.
  simpl. unfold Sample.play. intros Hn.
  destruct (list_find _ (Sample.offered e)) as [[i m]|] eqn:Hfind; [done|].
  exfalso. apply list_find_None in Hfind.
  apply list_elem_of_fmap in Hn as (m & -> & Hm).
  rewrite Forall_forall in Hfind. by apply (Hfind m).
Qed.

Lemma sample_store_no_sharing :
  NoDup (reachable Sample.store PIECE_SQUARE_TABLES).
Proof. apply (bool_decide_unpack _). by vm_compute. Qed.

(** ** Tables *)

Lemma reverseSquareTablesForBlack_run :
  ∃ base,
    (snapshot Sample.store PIECE_SQUARE_TABLES = Some base ∧
     NoDup (reachable Sample.store PIECE_SQUARE_TABLES) ∧
     table_set base) ∧
    ∃ cloned h' copy,
      reverseSquareTablesForBlack Sample.store = Some (cloned, h') ∧
      snapshot h' cloned = Some copy ∧
      copy = reverse_rows base ∧
      (∀ k, is_Some (tree_prop copy k) ↔ is_Some (tree_prop base k)) ∧
      (∀ k i, (i < 8)%nat → grid_row copy k i = grid_row base k (7 - i)) ∧
      (∀ l, l ∈ reachable h' cloned → (length Sample.store ≤ l)%nat) ∧
      (∀ l, (l < length Sample.store)%nat → h' !! l = Sample.store !! l) ∧
      snapshot h' PIECE_SQUARE_TABLES = Some base.
Proof.
  assert (∃ base, snapshot Sample.store PIECE_SQUARE_TABLES = Some base ∧
                  table_set base) as (base & Hbase & Hset).
  { eexists. split; [vm_compute; reflexivity|].
    repeat (constructor; [eexists; split; reflexivity|]). constructor. }
  exists base. split; [split_and!; [done|apply sample_store_no_sharing|done]|].
  apply (reverseSquareTablesForBlack_copy Sample.store base);
    [done|apply sample_store_no_sharing|done].
Defined.

Lemma init_tables_run :
  ∃ base,
    (snapshot Sample.store PIECE_SQUARE_TABLES = Some base ∧
     NoDup (reachable Sample.store PIECE_SQUARE_TABLES) ∧
     table_set base) ∧
    ∃ h' this',
      init Black "start" Sample.store (constructor (E:=list string)) =
        Some (h', this') ∧
      snapshot h' (aiSquareTables this') = Some (reverse_rows base) ∧
      snapshot h' (opponentSquareTables this') = Some base.
Proof.
  assert (∃ base, snapshot Sample.store PIECE_SQUARE_TABLES = Some base ∧
                  table_set base) as (base & Hbase & Hset).
  { eexists. split; [vm_compute; reflexivity|].
    repeat (constructor; [eexists; split; reflexivity|]). constructor. }
  exists base. split; [split_and!; [done|apply sample_store_no_sharing|done]|].
  apply (init_tables Black "start" Sample.store constructor base);
    [done|apply sample_store_no_sharing|done].
Defined.

(** Against C1 as stated: after initialization with White the
    opponent-tables are not the base tables.  Their first pawn row is the
    last pawn row of the base. *)
Lemma white_opponent_tables_are_reversed :
  Sample.whiteSession = Some (Sample.whiteHeap, Sample.whiteManager) ∧
  color Sample.whiteManager = Some White ∧
  snapshot Sample.whiteHeap (opponentSquareTables Sample.whiteManager) ≠
  snapshot Sample.whiteHeap PIECE_SQUARE_TABLES.
Proof.
  split_and!; [by vm_compute|by vm_compute|]. intros Heq.
  apply (f_equal (λ t, t ≫= λ t, grid_row t "p" 0)) in Heq.
  vm_compute in Heq. discriminate.
Qed.

(** ** The evaluator *)

(** Against C3 as stated: a capturing move of the engine receives the
    capture adjustment, 555, and the regular-move adjustment, -10. *)
Lemma capture_is_not_alone :
  Move.captured (Sample.takes White) = Some Bishop ∧
  evaluateBoard Sample.whiteHeap Sample.whiteManager (Sample.takes White) 0 =
    Some 545 ∧
  captureAdjustment Sample.whiteHeap Sample.whiteManager (Sample.takes White) =
    Some 555 ∧
  evaluateBoard Sample.whiteHeap Sample.whiteManager (Sample.takes White) 0 ≠
    (λ d, 0 + d) <$>
      captureAdjustment Sample.whiteHeap Sample.whiteManager (Sample.takes White).
Proof. split_and!; by vm_compute. Qed.

(** C2 on an input: the engine plays Black, White pushes the pawn from e2
    to e4.  The evaluator returns -16, from the engine's own table; the
    opponent's table gives 16. *)
Lemma regular_opponent_move_run :
  color Sample.blackManager = Some Black ∧
  evaluateBoard Sample.blackHeap Sample.blackManager (Sample.push White) 0 =
    Some (-16) ∧
  (vf ← getOpponentValueFromSquareTable Sample.blackHeap Sample.blackManager
          Pawn (getMatrixPosition "e2");
   vt ← getOpponentValueFromSquareTable Sample.blackHeap Sample.blackManager
          Pawn (getMatrixPosition "e4");
   Some (0 + vf - vt)) = Some 16.
Proof. split_and!; by vm_compute. Qed.

(** The promotion branch itself, which is entered for the flags [p]
    alone: for a promotion of the other side the evaluator returns
    100 + 8 - (929 + 0); the positional term of the new piece is the
    pawn's entry at a8, 0, not the queen's, 400. *)
Lemma opponent_promotion_run :
  evaluateBoard Sample.blackHeap Sample.blackManager (Sample.promotes White) 0 =
    Some (-821) ∧
  getOpponentValueFromSquareTable Sample.blackHeap Sample.blackManager
    Pawn (getMatrixPosition "a7") = Some 8 ∧
  getOpponentValueFromSquareTable Sample.blackHeap Sample.blackManager
    Pawn (getMatrixPosition "a8") = Some 0 ∧
  getOpponentValueFromSquareTable Sample.blackHeap Sample.blackManager
    Queen (getMatrixPosition "a8") = Some 400.
Proof. split_and!; by vm_compute. Qed.

(** C9 on an input: the engine plays Black and promotes a pawn on a1, a
    move that chess.js reports with the flags [np].  The evaluator returns
    -8 for a promotion to a queen and to a knight alike, which is the step
    of a pawn from a2 to a1 in the pawn's table: the test for a promotion
    compares the flags with [p], so the branch that uses the queen's
    weights is not entered.  The queen's material and positional weights
    give 1221.  Likewise for a promotion of White on a8: -8, where the
    queen's weights give -1221. *)
Lemma promotion_np_run :
  color Sample.blackManager = Some Black ∧
  Move.flags (Sample.promotesTo Black Queen) = "np"%string ∧
  evaluateBoard Sample.blackHeap Sample.blackManager
    (Sample.promotesTo Black Queen) 0 = Some (-8) ∧
  evaluateBoard Sample.blackHeap Sample.blackManager
    (Sample.promotesTo Black Knight) 0 = Some (-8) ∧
  regularAdjustment Sample.blackHeap Sample.blackManager
    (Sample.promotesTo Black Queen) = Some (-8) ∧
  (vp ← getAiValueFromSquareTable Sample.blackHeap Sample.blackManager
          Pawn (getMatrixPosition "a2");
   vq ← getAiValueFromSquareTable Sample.blackHeap Sample.blackManager
          Queen (getMatrixPosition "a1");
   Some (0 - (PIECE_WEIGHTS Pawn + vp) + (PIECE_WEIGHTS Queen + vq))) =
    Some 1221 ∧
  evaluateBoard Sample.blackHeap Sample.blackManager
    (Sample.promotesTo White Queen) 0 = Some (-8) ∧
  evaluateBoard Sample.blackHeap Sample.blackManager
    (Sample.promotesTo White Knight) 0 = Some (-8) ∧
  (vp ← getOpponentValueFromSquareTable Sample.blackHeap Sample.blackManager
          Pawn (getMatrixPosition "a7");
   vq ← getOpponentValueFromSquareTable Sample.blackHeap Sample.blackManager
          Queen (getMatrixPosition "a8");
   Some (0 + (PIECE_WEIGHTS Pawn + vp) - (PIECE_WEIGHTS Queen + vq))) =
    Some (-1221).
Proof. split_and!; by vm_compute. Qed.

(** ** The session *)

Lemma init_keeps_running_score_run :
  ∃ h' this',
    init White "start" Sample.store (constructor (E:=list string)) =
      Some (h', this') ∧
    prevSum this' = prevSum (constructor (E:=list string)) ∧
    prevSum (constructor (E:=list string)) = 0.
Proof.
  eexists _, _. split; [vm_compute; reflexivity|].
  eapply (init_keeps_running_score White "start" Sample.store constructor).
  vm_compute; reflexivity.
Defined.

(** Against C4 as stated: a manager that has recorded a move and is
    initialized again keeps the score of that move. *)
Lemma init_again_keeps_score :
  ∃ recorded h' this',
    updateBoardWithPlayerMove (Sample.push White)
      Sample.blackHeap Sample.blackManager = Some recorded ∧
    init Black "start" Sample.blackHeap recorded = Some (h', this') ∧
    prevSum this' = -16 ∧ prevSum this' ≠ 0.
Proof.
  eexists _, _, _. split_and!; [vm_compute; reflexivity..|done].
Qed.

Lemma calcAiMove_without_moves_run :
  moves (chessEngine
           (set_chessEngine ["e"; "e"; "e"; "e"]%string Sample.whiteManager))
    = [] ∧
  ∃ this',
    calcAiMove Sample.whiteHeap
      (set_chessEngine ["e"; "e"; "e"; "e"]%string Sample.whiteManager)
      = Some (Null, this') ∧
    prevSum this' =
      prevSum (set_chessEngine ["e"; "e"; "e"; "e"]%string Sample.whiteManager).
Proof.
  split; [reflexivity|]. apply calcAiMove_without_moves. reflexivity.
Defined.

(** ** The search *)

Lemma search_restores_position_run :
  (∀ (e : list string) n, n ∈ moves e → undo (move (inl n) e).2 = e) ∧
  ∃ r this',
    minimax Sample.whiteHeap 3 0 true NegInf PosInf Sample.whiteManager =
      Some (r, this') ∧
    chessEngine this' = chessEngine Sample.whiteManager ∧
    this' = Sample.whiteManager.
Proof.
  split; [apply sample_undo_move|].
  eexists _, _. split; [vm_compute; reflexivity|].
  eapply (search_restores_position Sample.whiteHeap sample_undo_move
            3 0 true NegInf PosInf).
  vm_compute; reflexivity.
Defined.

Lemma sample_scorable : scorable Sample.whiteHeap Sample.whiteManager.
Proof.
  intros e n Hn. simpl in Hn. simpl. unfold Sample.play.
  unfold Sample.offered in *.
  destruct (length e <? Sample.horizon)%nat; [|by apply elem_of_nil in Hn].
  assert (∀ mv, mv ∈ [Sample.push (Sample.toMove e);
                       Sample.takes (Sample.toMove e);
                       Sample.promotes (Sample.toMove e)] →
            ∀ s, is_Some (evaluateBoard Sample.whiteHeap Sample.whiteManager mv s))
    as Hscore.
  { intros mv Hmv s. rewrite evaluateBoard_adjusts.
    destruct (Sample.toMove e);
      repeat (apply elem_of_cons in Hmv as [->|Hmv];
              [eexists; vm_compute; reflexivity|]);
      by apply elem_of_nil in Hmv. }
  destruct (list_find _ _) as [[i mv]|] eqn:Hfind.
  - exists mv. split; [done|]. apply Hscore.
    apply list_find_Some in Hfind as (Hi & _). by eapply list_elem_of_lookup_2.
  - exfalso. apply list_find_None in Hfind.
    apply list_elem_of_fmap in Hn as (m & -> & Hm).
    rewrite Forall_forall in Hfind. by apply (Hfind m).
Qed.

Lemma alpha_beta_equals_plain_minimax_run :
  ((∀ (e : list string) n, n ∈ moves e → undo (move (inl n) e).2 = e) ∧
   (3 ≤ 3)%nat) ∧
  (∀ r this',
     plain_minimax Sample.whiteHeap 3 0 true Sample.whiteManager =
       Some (r, this') →
     minimax Sample.whiteHeap 3 0 true NegInf PosInf Sample.whiteManager =
       Some (r, this')) ∧
  (scorable Sample.whiteHeap Sample.whiteManager →
   ∃ r, plain_minimax Sample.whiteHeap 3 0 true Sample.whiteManager =
          Some (r, Sample.whiteManager) ∧
        minimax Sample.whiteHeap 3 0 true NegInf PosInf Sample.whiteManager =
          Some (r, Sample.whiteManager)).
Proof.
  split; [split; [apply sample_undo_move|lia]|].
  apply (alpha_beta_equals_plain_minimax Sample.whiteHeap sample_undo_move
           3 0 true Sample.whiteManager). lia.
Defined.

(** On the sample both searches return the promotion, with value 1637. *)
Lemma alpha_beta_sample_result :
  plain_minimax Sample.whiteHeap 3 0 true Sample.whiteManager =
    Some ((AMove (Sample.promotes White), Fin 1637), Sample.whiteManager) ∧
  minimax Sample.whiteHeap 3 0 true NegInf PosInf Sample.whiteManager =
    Some ((AMove (Sample.promotes White), Fin 1637), Sample.whiteManager).
Proof. split; by vm_compute. Qed.

Lemma later_child_replaces_only_if_better_run :
  ∃ st' this',
    minimax_loop (λ newSum, minimax Sample.whiteHeap 2 newSum false)
      Sample.whiteHeap 0 true ["Nxd"; "a=N"]%string
      Sample.holdingPush Sample.whiteManager = Some (st', this') ∧
    ∃ seen : list (maybeMove * num),
      (∀ i c, seen !! i = Some c →
              nth_child (λ newSum, minimax Sample.whiteHeap 2 newSum false)
                Sample.whiteHeap 0 true ["Nxd"; "a=N"]%string
                Sample.holdingPush Sample.whiteManager i = Some c) ∧
      minimax_loop (λ newSum, minimax Sample.whiteHeap 2 newSum false)
        Sample.whiteHeap 0 true
        (take (length seen) ["Nxd"; "a=N"]%string)
        Sample.holdingPush Sample.whiteManager = Some (st', this') ∧
      (length seen ≤ length ["Nxd"; "a=N"]%string)%nat ∧
      (["Nxd"; "a=N"]%string ≠ [] → seen ≠ []) ∧
      ((length seen < length ["Nxd"; "a=N"]%string)%nat →
       num_le (beta st') (alpha st')) ∧
      earliest_best true
        (bestMove Sample.holdingPush, bestVal true Sample.holdingPush) seen
        (bestMove st', bestVal true st').
Proof.
  eexists _, _. split; [vm_compute; reflexivity|].
  eapply (later_child_replaces_only_if_better Sample.whiteHeap
           (λ newSum, minimax Sample.whiteHeap 2 newSum false) 0 true
           ["Nxd"; "a=N"]%string Sample.holdingPush Sample.whiteManager).
  vm_compute; reflexivity.
Defined.

(** On the sample, the promotion, tried last, also yields 1637; the move
    held before it stays the best move. *)
Lemma tie_keeps_earlier_sample :
  ∃ st' this',
    minimax_loop (λ newSum, minimax Sample.whiteHeap 2 newSum false)
      Sample.whiteHeap 0 true ["Nxd"; "a=N"]%string
      Sample.holdingPush Sample.whiteManager = Some (st', this') ∧
    (λ r, r.1.2) <$>
      minimax Sample.whiteHeap 2
        (default 0 (evaluateBoard Sample.whiteHeap Sample.whiteManager
                      (Sample.promotes White) 0))
        false (Fin 1637) PosInf
        (set_chessEngine ["a=N"]%string Sample.whiteManager) =
      Some (Fin 1637) ∧
    bestVal true st' = Fin 1637 ∧
    bestMove st' = AMove (Sample.push White).
Proof. eexists _, _. split_and!; by vm_compute. Qed.

(** ** Further runs *)

(** The tables of the sample are full, before and after initialization. *)
Lemma sample_base :
  ∃ base, snapshot Sample.store PIECE_SQUARE_TABLES = Some base ∧
          table_set base ∧ full_tables base.
Proof.
  eexists. split; [vm_compute; reflexivity|]. split.
  - repeat (constructor; [eexists; split; reflexivity|]). constructor.
  - intros piece. destruct piece;
      (eexists; split; [vm_compute; reflexivity|]);
      (eexists; split_and!; [reflexivity|reflexivity|]);
      repeat (constructor;
              [eexists; split_and!;
                 [reflexivity|reflexivity|
                  repeat (constructor; [by eexists|]); constructor]|]);
      constructor.
Qed.

Lemma unready_manager_fails_run :
  (aiSquareTables (constructor (E:=list string)) = VUndef ∧
   opponentSquareTables (constructor (E:=list string)) = VUndef) ∧
  (∀ mv s, evaluateBoard Sample.store (constructor (E:=list string)) mv s = None) ∧
  (∀ mv, updateBoardWithPlayerMove mv Sample.store
           (constructor (E:=list string)) = None) ∧
  (moves (chessEngine (constructor (E:=list string))) ≠ [] →
   calcAiMove Sample.store (constructor (E:=list string)) = None).
Proof.
  split; [split; reflexivity|].
  apply (unready_manager_fails Sample.store constructor); reflexivity.
Defined.

Lemma minimax_principal_line_run :
  ((∀ (e : list string) n, n ∈ moves e → undo (move (inl n) e).2 = e) ∧
   scorable Sample.whiteHeap Sample.whiteManager) ∧
  ∃ m v,
    minimax Sample.whiteHeap 3 0 true NegInf PosInf Sample.whiteManager =
      Some ((m, v), Sample.whiteManager) ∧
    m ≠ Undefined ∧
    ∃ path z,
      (length path ≤ 3)%nat ∧
      line_score Sample.whiteHeap Sample.whiteManager
        (chessEngine Sample.whiteManager) 0 path = Some z ∧
      v = Fin z ∧
      m = match path with
          | [] => Null
          | n :: _ => (move (inl n) (chessEngine Sample.whiteManager)).1
          end ∧
      (path = [] ↔ 3%nat = 0%nat ∨ moves (chessEngine Sample.whiteManager) = []).
Proof.
  split; [split; [apply sample_undo_move|apply sample_scorable]|].
  apply (minimax_principal_line Sample.whiteHeap sample_undo_move
           3 0 true NegInf PosInf Sample.whiteManager sample_scorable).
Defined.

Lemma calcAiMove_plays_minimax_run :
  ((∀ (e : list string) n, n ∈ moves e → undo (move (inl n) e).2 = e) ∧
   scorable Sample.whiteHeap Sample.whiteManager) ∧
  ∃ m z,
    plain_minimax Sample.whiteHeap 3 (prevSum Sample.whiteManager) true
      Sample.whiteManager = Some ((m, Fin z), Sample.whiteManager) ∧
    calcAiMove Sample.whiteHeap Sample.whiteManager =
      Some (m, set_chessEngine
                 (move (inr m) (chessEngine Sample.whiteManager)).2
                 (set_prevSum z Sample.whiteManager)).
Proof.
  split; [split; [apply sample_undo_move|apply sample_scorable]|].
  apply (calcAiMove_plays_minimax Sample.whiteHeap sample_undo_move
           Sample.whiteManager sample_scorable).
Defined.

Lemma init_getters_mirror_run :
  ∃ base,
    (snapshot Sample.store PIECE_SQUARE_TABLES = Some base ∧
     NoDup (reachable Sample.store PIECE_SQUARE_TABLES) ∧
     table_set base) ∧
    ∃ h' this',
      init Black "start" Sample.store (constructor (E:=list string)) =
        Some (h', this') ∧
      ∀ piece r col, (r < 8)%nat →
        getOpponentValueFromSquareTable h' this' piece
          {| row := r; column := col |} =
        getAiValueFromSquareTable h' this' piece
          {| row := 7 - r; column := col |}.
Proof.
  destruct sample_base as (base & Hbase & Hset & _).
  exists base. split; [split_and!; [done|apply sample_store_no_sharing|done]|].
  apply (init_getters_mirror Black "start" Sample.store constructor base);
    [done|apply sample_store_no_sharing|done].
Defined.

Lemma init_copies_run :
  ∃ base,
    (snapshot Sample.store PIECE_SQUARE_TABLES = Some base ∧
     NoDup (reachable Sample.store PIECE_SQUARE_TABLES) ∧
     table_set base) ∧
    ∃ h' this',
      init White "start" Sample.store (constructor (E:=list string)) =
        Some (h', this') ∧
      (∀ l, (l < length Sample.store)%nat → h' !! l = Sample.store !! l) ∧
      snapshot h' PIECE_SQUARE_TABLES = Some base ∧
      (∀ l, l ∈ reachable h' (aiSquareTables this') →
            (length Sample.store ≤ l)%nat ∧
            l ∉ reachable h' (opponentSquareTables this')) ∧
      (∀ l, l ∈ reachable h' (opponentSquareTables this') →
            (length Sample.store ≤ l)%nat).
Proof.
  destruct sample_base as (base & Hbase & Hset & _).
  exists base. split; [split_and!; [done|apply sample_store_no_sharing|done]|].
  apply (init_copies White "start" Sample.store constructor base);
    [done|apply sample_store_no_sharing|done].
Defined.

Lemma init_twice_run :
  ∃ base,
    (snapshot Sample.store PIECE_SQUARE_TABLES = Some base ∧
     NoDup (reachable Sample.store PIECE_SQUARE_TABLES) ∧
     table_set base) ∧
    ∃ h1 first' h2 second',
      init White "start" Sample.store (constructor (E:=list string)) =
        Some (h1, first') ∧
      init Black "start" h1 (constructor (E:=list string)) =
        Some (h2, second') ∧
      snapshot h2 (aiSquareTables first') =
        snapshot h1 (aiSquareTables first') ∧
      snapshot h2 (opponentSquareTables first') =
        snapshot h1 (opponentSquareTables first') ∧
      is_Some (snapshot h1 (aiSquareTables first')) ∧
      is_Some (snapshot h1 (opponentSquareTables first')) ∧
      (∀ l,
         l ∈ reachable h2 (aiSquareTables first') ++
             reachable h2 (opponentSquareTables first') →
         l ∉ reachable h2 (aiSquareTables second') ++
             reachable h2 (opponentSquareTables second')).
Proof.
  destruct sample_base as (base & Hbase & Hset & _).
  exists base. split; [split_and!; [done|apply sample_store_no_sharing|done]|].
  apply (init_twice White "start" Black "start" Sample.store
           constructor constructor base);
    [done|apply sample_store_no_sharing|done].
Defined.

Lemma sample_white_tables :
  ∃ ta to,
    snapshot Sample.whiteHeap (aiSquareTables Sample.whiteManager) = Some ta ∧
    full_tables ta ∧
    snapshot Sample.whiteHeap (opponentSquareTables Sample.whiteManager) =
      Some to ∧
    full_tables to.
Proof.
  destruct sample_base as (base & Hbase & Hset & Hfull).
  destruct (init_store White "start" Sample.store
              (constructor (E:=list string)) base Hbase
              sample_store_no_sharing Hset)
    as (h' & this' & Hinit & Hai & Hopp & _).
  exists base, (reverse_rows base).
  unfold Sample.whiteHeap, Sample.whiteManager, Sample.whiteSession.
  rewrite Hinit. simpl.
  split_and!; [done|done|done|by apply full_tables_reverse_rows].
Qed.

Lemma getters_within_board_run :
  ∃ ta to,
    (snapshot Sample.whiteHeap (aiSquareTables Sample.whiteManager) = Some ta ∧
     full_tables ta ∧
     snapshot Sample.whiteHeap (opponentSquareTables Sample.whiteManager) =
       Some to ∧
     full_tables to) ∧
    ∀ piece pos,
      (is_Some (getAiValueFromSquareTable Sample.whiteHeap Sample.whiteManager
                  piece pos) ↔
       (row pos < 8)%nat ∧ (column pos < 8)%nat) ∧
      (is_Some (getOpponentValueFromSquareTable Sample.whiteHeap
                  Sample.whiteManager piece pos) ↔
       (row pos < 8)%nat ∧ (column pos < 8)%nat).
Proof.
  destruct sample_white_tables as (ta & to & Hta & Hfa & Hto & Hfo).
  exists ta, to. split; [exact (conj Hta (conj Hfa (conj Hto Hfo)))|].
  exact (getters_within_board Sample.whiteHeap Sample.whiteManager ta to
           Hta Hfa Hto Hfo).
Defined.

Lemma init_then_scores_run :
  ∃ base,
    (snapshot Sample.store PIECE_SQUARE_TABLES = Some base ∧
     NoDup (reachable Sample.store PIECE_SQUARE_TABLES) ∧
     table_set base ∧ full_tables base) ∧
    ∃ h' this',
      init Black "start" Sample.store (constructor (E:=list string)) =
        Some (h', this') ∧
      ∀ mv s,
        (row (getMatrixPosition (Move.from mv)) < 8)%nat →
        (column (getMatrixPosition (Move.from mv)) < 8)%nat →
        (row (getMatrixPosition (Move.to mv)) < 8)%nat →
        (column (getMatrixPosition (Move.to mv)) < 8)%nat →
        is_Some (evaluateBoard h' this' mv s).
Proof.
  destruct sample_base as (base & Hbase & Hset & Hfull).
  exists base.
  split; [split_and!; [done|apply sample_store_no_sharing|done|done]|].
  apply (init_then_scores Black "start" Sample.store constructor base);
    [done|apply sample_store_no_sharing|done|done].
Defined.
